(** * torch-multigpu-baseline: the LARS optimizer, the warmup/cosine
      learning-rate schedule and the worker loop of [main.py]

    Numbers.  Python ints are [Z].  Python floats and the entries of torch
    tensors are idealised as real numbers [R]: rounding is not modelled.
    What is modelled of floating point is the part the program's control
    flow depends on:
    - a Python division whose divisor is zero raises [ZeroDivisionError];
    - a torch division whose divisor is zero does not raise, it yields a
      value that is not a finite number (an infinity or a NaN), written
      [None] below; [torch.where] evaluates both alternatives and selects.

    Objects.  A parameter is an object with identity; the optimizer state
    is keyed by that identity.  Parameters live in a heap [gmap nat Param]
    and are referred to by their key. *)

From Stdlib Require Import Reals Lra Lia ZArith List.
From stdpp Require Import gmap list fin_maps.

Local Open Scope R_scope.

(** ** Python results *)

(** The ways a run of the model ends early.  The first five are Python
    exceptions.  [NonFinite] is not an exception: it marks the point where a
    tensor would stop being a tensor of finite numbers, which is where this
    model of the arithmetic ends. *)
Inductive PyError : Type :=
| ZeroDivisionError
| AssertionError
| IndexError
| NameError
| ValueError
| NonFinite.

Inductive Result (A : Type) : Type :=
| Ok (a : A)
| Err (e : PyError).
Arguments Ok {A} a.
Arguments Err {A} e.

#[global] Instance Result_ret : MRet Result := fun A a => Ok a.
#[global] Instance Result_bind : MBind Result := fun A B f m =>
  match m with
  | Ok a => f a
  | Err e => Err e
  end.

(** [x / n] for a float [x] and an int [n]. *)
Definition py_truediv (x : R) (n : Z) : Result R :=
  if (n =? 0)%Z then Err ZeroDivisionError else Ok (x / IZR n).

(** ** Tensors *)

(** The entries of a tensor in storage order; the number of dimensions is
    kept with the parameter.  The operations on two tensors below are only
    applied to tensors of one shape: a gradient and a momentum buffer have
    the shape of their parameter. *)
Abbreviation tensor := (list R).

Definition zeros_like (t : tensor) : tensor := repeat 0 (length t).

(** [a.add(b, alpha=alpha)] *)
Definition tadd_alpha (a b : tensor) (alpha : R) : tensor :=
  zip_with (fun x y => x + alpha * y) a b.

(** [a.add_(b)] *)
Definition tadd (a b : tensor) : tensor := zip_with Rplus a b.

(** [a.mul(c)] for a scalar [c] *)
Definition tmul (a : tensor) (c : R) : tensor := map (fun x => x * c) a.

(** [torch.norm(a)]: the 2-norm of the entries, as a real number.  The sum
    of the squares neither underflows nor overflows here, as it can in
    float32. *)
Definition sum_sq (a : tensor) : R := fold_right (fun x acc => x * x + acc) 0 a.
Definition norm (a : tensor) : R := sqrt (sum_sq a).

(** [a / b] on 0-dimensional tensors. *)
Definition torch_div (a b : R) : option R :=
  if Req_dec_T b 0 then None else Some (a / b).

Definition torch_where {A} (c : bool) (a b : A) : A := if c then a else b.

(** [a > 0] on a 0-dimensional tensor. *)
Definition gt0 (a : R) : bool := if Rlt_dec 0 a then true else false.

(** ** Parameters, parameter groups, the optimizer *)

Record Param := mkParam {
  p_data : tensor;
  p_grad : option tensor;
  p_ndim : nat
}.

Record Group := mkGroup {
  g_params : list nat;
  g_lr : R;
  g_weight_decay : R;
  g_momentum : R;
  g_eta : R;
  g_weight_decay_filter : bool;
  g_lars_adaptation_filter : bool
}.

Definition set_lr (lr : R) (g : Group) : Group :=
  mkGroup (g_params g) lr (g_weight_decay g) (g_momentum g) (g_eta g)
          (g_weight_decay_filter g) (g_lars_adaptation_filter g).

(** [state] holds the ['mu'] buffer of each parameter that has one. *)
Record LARS := mkLARS {
  param_groups : list Group;
  state : gmap nat tensor
}.

Record Args := mkArgs {
  bs : Z;
  epochs : Z;
  lr : R;
  warm : bool;
  learning_rate_weights : R;
  learning_rate_biases : R;
  wd : R;
  rank : Z;
  world_size : Z;
  workers : Z
}.

(** ** adjust_learning_rate *)

(** Lines 23-33: the rate computed before the per-group multipliers.
    [len_loader] is [len(loader)]. *)
Definition schedule_lr (args : Args) (len_loader : Z) (step : Z) : Result R :=
  let max_steps := (epochs args * len_loader)%Z in
  let warmup_steps := (10 * len_loader)%Z in
  let base_lr := IZR (bs args) / 256 in
  if (step <? warmup_steps)%Z then
    py_truediv (base_lr * IZR step) warmup_steps
  else
    let step := (step - warmup_steps)%Z in
    let max_steps := (max_steps - warmup_steps)%Z in
    x ← py_truediv (PI * IZR step) max_steps;
    let q := 0.5 * (1 + cos x) in
    let end_lr := base_lr * 0.001 in
    Ok (base_lr * q + end_lr * (1 - q)).

(** [groups[i]['lr'] = v] *)
Definition assign_lr (i : nat) (v : R) (groups : list Group) : Result (list Group) :=
  match groups !! i with
  | Some g => Ok (<[i := set_lr v g]> groups)
  | None => Err IndexError
  end.

Definition adjust_learning_rate (args : Args) (optimizer : LARS)
    (len_loader : Z) (step : Z) : Result LARS :=
  lr ← schedule_lr args len_loader step;
  gs ← assign_lr 0 (lr * learning_rate_weights args) (param_groups optimizer);
  gs ← assign_lr 1 (lr * learning_rate_biases args) gs;
  Ok (mkLARS gs (state optimizer)).

(** ** LARS.step *)

Definition exclude_bias_and_norm (p : Param) : bool := (p_ndim p =? 1)%nat.

(** Lines 60-61. *)
Definition weight_decay_grad (g : Group) (p : Param) (dp : tensor) : tensor :=
  if negb (g_weight_decay_filter g) || negb (exclude_bias_and_norm p)
  then tadd_alpha dp (p_data p) (g_weight_decay g)
  else dp.

(** Lines 64-69: the scalar [q]. *)
Definition trust_ratio (eta param_norm update_norm : R) : option R :=
  let one := Some 1 in
  torch_where (gt0 param_norm)
    (torch_where (gt0 update_norm)
       (torch_div (eta * param_norm) update_norm) one) one.

(** Lines 63-70. *)
Definition lars_adapt (g : Group) (p : Param) (dp : tensor) : Result tensor :=
  if negb (g_lars_adaptation_filter g) || negb (exclude_bias_and_norm p)
  then
    let param_norm := norm (p_data p) in
    let update_norm := norm dp in
    match trust_ratio (g_eta g) param_norm update_norm with
    | Some q => Ok (tmul dp q)
    | None => Err NonFinite
    end
  else Ok dp.



(** Lines 72-75: the buffer found, or created, for the parameter. *)
Definition momentum_buffer (st : gmap nat tensor) (id : nat) (p : Param) : tensor :=
  match st !! id with
  | Some mu => mu
  | None => zeros_like (p_data p)
  end.

Definition with_data (p : Param) (d : tensor) : Param :=
  mkParam d (p_grad p) (p_ndim p).

(** Lines 72-78: both updates are in place, on the buffer held by the
    optimizer state and on the parameter. *)
Definition momentum_descent (g : Group) (id : nat) (p : Param) (dp : tensor)
    (s : gmap nat tensor * gmap nat Param) : gmap nat tensor * gmap nat Param :=
  let '(st, h) := s in
  let mu := momentum_buffer st id p in
  let mu := tadd (tmul mu (g_momentum g)) dp in
  (<[id := mu]> st, <[id := with_data p (tadd_alpha (p_data p) mu (- g_lr g))]> h).

(** The body of the inner loop for the parameter [id] of group [g].  A key
    without a parameter cannot arise (groups hold the parameter objects
    themselves) and is passed over. *)
Definition step_param (g : Group) (id : nat)
    (s : gmap nat tensor * gmap nat Param) : Result (gmap nat tensor * gmap nat Param) :=
  match s.2 !! id with
  | None => Ok s
  | Some p =>
    match p_grad p with
    | None => Ok s
    | Some dp =>
      let dp := weight_decay_grad g p dp in
      dp ← lars_adapt g p dp;
      Ok (momentum_descent g id p dp s)
    end
  end.

Fixpoint step_params (g : Group) (ids : list nat)
    (s : gmap nat tensor * gmap nat Param) : Result (gmap nat tensor * gmap nat Param) :=
  match ids with
  | [] => Ok s
  | id :: ids => s ← step_param g id s; step_params g ids s
  end.

Fixpoint step_groups (gs : list Group)
    (s : gmap nat tensor * gmap nat Param) : Result (gmap nat tensor * gmap nat Param) :=
  match gs with
  | [] => Ok s
  | g :: gs => s ← step_params g (g_params g) s; step_groups gs s
  end.

Definition LARS_step (opt : LARS) (h : gmap nat Param) : Result (LARS * gmap nat Param) :=
  s ← step_groups (param_groups opt) (state opt, h);
  Ok (mkLARS (param_groups opt) s.1, s.2).

(** ** The worker: state, log and operations *)

(** The operations of a worker that other workers or the outside can
    observe, recorded in the order in which they are performed. *)
Inductive Event : Type :=
| EvAdjustLearningRate
| EvSchedulerStep
| EvForward
| EvLoss
| EvZeroGrad
| EvBackward
| EvOptimizerStep
| EvToParquet.

Record Log := mkLog {
  train_loss : list R;
  train_acc : list R;
  test_loss : list R;
  test_acc : list R
}.

(** The accumulators [train_loss] / [test_loss], [correct], [total] and
    [batch_count] of one epoch. *)
Record Acc := mkAcc {
  a_loss : R;
  a_correct : Z;
  a_total : Z;
  a_batch_count : Z
}.

Abbreviation logits := (list (list R)).
Abbreviation labels := (list nat).

(** [logits.max(1)]: for each row the index of its largest entry. *)
Fixpoint argmax_from (best : nat) (best_v : R) (i : nat) (row : list R) : nat :=
  match row with
  | [] => best
  | x :: row =>
    if Rlt_dec best_v x then argmax_from i x (S i) row
    else argmax_from best best_v (S i) row
  end.

Definition argmax (row : list R) : nat :=
  match row with
  | [] => 0%nat
  | x :: row => argmax_from 0 x 1 row
  end.

(** [predicted.eq(label).sum().item()] *)
Definition count_correct (out : logits) (label : labels) : Z :=
  Z.of_nat (sum_list (zip_with (fun a b => if (a =? b)%nat then 1%nat else 0%nat)
                               (map argmax out) label)).

(** [enumerate(l, start=start)] *)
Fixpoint enumerate {A} (l : list A) (start : Z) : list (Z * A) :=
  match l with
  | [] => []
  | x :: l => (start, x) :: enumerate l (start + 1)%Z
  end.

(** [p.grad] after a backward pass that computed [new] for [p]. *)
Definition accumulate_grad (old new : option tensor) : option tensor :=
  match new with
  | None => old
  | Some g =>
    match old with
    | None => Some g
    | Some o => Some (tadd o g)
    end
  end.

Definition with_grad (p : Param) (g : option tensor) : Param :=
  mkParam (p_data p) g (p_ndim p).

(** The heap after a backward pass that computed the gradients [gr]. *)
Definition accumulate_grads (gr : gmap nat tensor) (h : gmap nat Param) : gmap nat Param :=
  map_imap (fun id p => Some (with_grad p (accumulate_grad (p_grad p) (gr !! id)))) h.

(** [optimizer.zero_grad()] on the heap: the gradient of every parameter of
    every group is reset (to [None], the library's default). *)
Definition zero_grad_params (ids : list nat) (h : gmap nat Param) : gmap nat Param :=
  foldl (fun h id => alter (fun p => with_grad p None) id h) h ids.

Definition zero_grad (opt : LARS) (h : gmap nat Param) : gmap nat Param :=
  foldl (fun h g => zero_grad_params (g_params g) h) h (param_groups opt).

(** Lines 111-115. *)
Fixpoint partition_params (params : list (nat * Param))
    (param_weights param_biases : list nat) : list nat * list nat :=
  match params with
  | [] => (param_weights, param_biases)
  | (id, param) :: params =>
    if (p_ndim param =? 1)%nat
    then partition_params params param_weights (param_biases ++ [id])
    else partition_params params (param_weights ++ [id]) param_biases
  end.

(** [LARS(params=parameters, weight_decay=.., lr=.., weight_decay_filter=..,
    lars_adaptation_filter=..)] with the defaults [momentum=0.9],
    [eta=0.001] of the constructor. *)
Definition LARS_init (params : list (list nat)) (lr weight_decay : R)
    (weight_decay_filter lars_adaptation_filter : bool) : LARS :=
  let momentum := 0.9 in
  let eta := 0.001 in
  mkLARS (map (fun ps => mkGroup ps lr weight_decay momentum eta
                                 weight_decay_filter lars_adaptation_filter) params)
         ∅.

Definition with_rank (args : Args) (r : Z) : Args :=
  mkArgs (bs args) (epochs args) (lr args) (warm args) (learning_rate_weights args)
         (learning_rate_biases args) (wd args) r (world_size args) (workers args).

Section WorkerLoop.

(** The collaborators of the loop that are not part of this program: the
    model, the loss, the (synchronised) gradient of the loss, the library
    scheduler of the no-warmup mode and the data loaders. *)
Context {Img Sched : Type}.
Variable forward : gmap nat Param -> Img -> logits.
Variable criterion : logits -> labels -> R.
Variable gradient : gmap nat Param -> Img -> labels -> gmap nat tensor.
Variable CosineAnnealingLR : LARS -> Z -> Sched * LARS.
Variable scheduler_step : Sched -> LARS -> Sched * LARS.
Variable model_parameters : list (nat * Param).
(** [len(train_loader)], and what iterating the loaders yields, for a
    batch size per device and an epoch. *)
Variable len_train_loader : Z -> Z.
Variable train_loader : Z -> Z -> list (Img * labels).
Variable test_loader : Z -> Z -> list (Img * labels).

Record World := mkWorld {
  w_heap : gmap nat Param;
  w_optimizer : LARS;
  w_scheduler : option Sched;
  w_log : Log;
  w_events : list Event;
  w_saved : option Log
}.

Definition M (A : Type) : Type := World -> Result A * World.

#[global] Instance M_ret : MRet M := fun A a w => (Ok a, w).
#[global] Instance M_bind : MBind M := fun A B f m w =>
  match m w with
  | (Ok a, w) => f a w
  | (Err e, w) => (Err e, w)
  end.

Definition lift {A} (r : Result A) : M A := fun w => (r, w).

Definition emit (e : Event) : M unit := fun w =>
  (Ok tt, mkWorld (w_heap w) (w_optimizer w) (w_scheduler w) (w_log w)
                  (w_events w ++ [e]) (w_saved w)).

Definition set_machine (h : gmap nat Param) (opt : LARS) (s : option Sched) : M unit :=
  fun w => (Ok tt, mkWorld h opt s (w_log w) (w_events w) (w_saved w)).

Definition set_log (l : Log) : M unit := fun w =>
  (Ok tt, mkWorld (w_heap w) (w_optimizer w) (w_scheduler w) l (w_events w) (w_saved w)).

Definition get : M World := fun w => (Ok w, w).

(** [adjust_learning_rate(args, optimizer, train_loader, step)] *)
Definition do_adjust_learning_rate (args : Args) (len_loader step : Z) : M unit :=
  emit EvAdjustLearningRate;;
  w ← get;
  opt ← lift (adjust_learning_rate args (w_optimizer w) len_loader step);
  set_machine (w_heap w) opt (w_scheduler w).

(** [scheduler.step()] *)
Definition do_scheduler_step : M unit :=
  emit EvSchedulerStep;;
  w ← get;
  match w_scheduler w with
  | None => lift (Err NameError)
  | Some s =>
    let '(s, opt) := scheduler_step s (w_optimizer w) in
    set_machine (w_heap w) opt (Some s)
  end.

(** [model(img)] *)
Definition model (img : Img) : M logits :=
  emit EvForward;;
  w ← get;
  mret (forward (w_heap w) img).

(** [criterion(logits, label)] *)
Definition do_criterion (out : logits) (label : labels) : M R :=
  emit EvLoss;;
  mret (criterion out label).

(** [optimizer.zero_grad()] *)
Definition optimizer_zero_grad : M unit :=
  emit EvZeroGrad;;
  w ← get;
  set_machine (zero_grad (w_optimizer w) (w_heap w)) (w_optimizer w) (w_scheduler w).

(** [loss.backward()] for the loss of [img], [label]: the gradient is
    added to what [.grad] holds. *)
Definition loss_backward (img : Img) (label : labels) : M unit :=
  emit EvBackward;;
  w ← get;
  let gr := gradient (w_heap w) img label in
  set_machine (accumulate_grads gr (w_heap w)) (w_optimizer w) (w_scheduler w).

(** [optimizer.step()] *)
Definition optimizer_step : M unit :=
  emit EvOptimizerStep;;
  w ← get;
  '(opt, h) ← lift (LARS_step (w_optimizer w) (w_heap w));
  set_machine h opt (w_scheduler w).

(** Lines 188-191 and 211-214. *)
Definition accumulate (acc : Acc) (loss : R) (out : logits) (label : labels) : Acc :=
  mkAcc (a_loss acc + loss)
        (a_correct acc + count_correct out label)
        (a_total acc + Z.of_nat (length label))
        (a_batch_count acc).

Definition with_batch_count (acc : Acc) (n : Z) : Acc :=
  mkAcc (a_loss acc) (a_correct acc) (a_total acc) n.

(** Lines 173-191: the body of the training loop. *)
Definition train_batch (args : Args) (len_loader : Z) (acc : Acc)
    (item : Z * (Img * labels)) : M Acc :=
  let '(step, (train_img, train_label)) := item in
  (if warm args then do_adjust_learning_rate args len_loader step
   else do_scheduler_step);;
  let acc := with_batch_count acc step in
  out ← model train_img;
  loss ← do_criterion out train_label;
  optimizer_zero_grad;;
  loss_backward train_img train_label;;
  optimizer_step;;
  mret (if (rank args =? 0)%Z then accumulate acc loss out train_label else acc).

(** Lines 205-214: the body of the evaluation loop. *)
Definition eval_batch (acc : Acc) (item : Z * (Img * labels)) : M Acc :=
  let '(step, (val_img, val_label)) := item in
  let acc := with_batch_count acc step in
  out ← model val_img;
  loss ← do_criterion out val_label;
  mret (accumulate acc loss out val_label).

Fixpoint for_each {A B} (body : B -> A -> M B) (acc : B) (l : list A) : M B :=
  match l with
  | [] => mret acc
  | x :: l => acc ← body acc x; for_each body acc l
  end.

Definition acc0 : Acc := mkAcc 0 0 0 0.

(** Lines 172-191. *)
Definition train_loop (args : Args) (per_device_batch_size epoch : Z) : M Acc :=
  let len_loader := len_train_loader per_device_batch_size in
  for_each (train_batch args len_loader) acc0
           (enumerate (train_loader per_device_batch_size epoch) (epoch * len_loader)%Z).

(** Lines 194-195. *)
Definition record_train (acc : Acc) : M unit :=
  x ← lift (py_truediv (a_loss acc) (a_batch_count acc + 1));
  w ← get;
  let l := w_log w in
  set_log (mkLog (train_loss l ++ [x]) (train_acc l) (test_loss l) (test_acc l));;
  x ← lift (py_truediv (100 * IZR (a_correct acc)) (a_total acc));
  w ← get;
  let l := w_log w in
  set_log (mkLog (train_loss l) (train_acc l ++ [x]) (test_loss l) (test_acc l)).

(** Lines 204-214. *)
Definition test_loop (per_device_batch_size epoch : Z) : M Acc :=
  for_each eval_batch acc0 (enumerate (test_loader per_device_batch_size epoch) 0).

(** Lines 216-217. *)
Definition record_test (acc : Acc) : M unit :=
  x ← lift (py_truediv (a_loss acc) (a_batch_count acc + 1));
  w ← get;
  let l := w_log w in
  set_log (mkLog (train_loss l) (train_acc l) (test_loss l ++ [x]) (test_acc l));;
  x ← lift (py_truediv (100 * IZR (a_correct acc)) (a_total acc));
  w ← get;
  let l := w_log w in
  set_log (mkLog (train_loss l) (train_acc l) (test_loss l) (test_acc l ++ [x])).

(** Lines 167-219: the body of the loop over epochs. *)
Definition run_epoch (args : Args) (per_device_batch_size : Z) (_ : unit) (epoch : Z) : M unit :=
  acc ← train_loop args per_device_batch_size epoch;
  (if (rank args =? 0)%Z then record_train acc else mret tt);;
  (if (rank args =? 0)%Z then
     acc ← test_loop per_device_batch_size epoch;
     record_test acc
   else mret tt).

(** [range(n)] *)
Definition range (n : Z) : list Z := map Z.of_nat (seq 0 (Z.to_nat n)).

(** [log_df.to_parquet(log_path)] *)
Definition save_log : M unit := fun w =>
  (Ok tt, mkWorld (w_heap w) (w_optimizer w) (w_scheduler w) (w_log w)
                  (w_events w) (Some (w_log w))).

Definition to_parquet : M unit :=
  emit EvToParquet;;
  save_log.

(** [assert a % b == 0] *)
Definition assert_divisible (a b : Z) : Result unit :=
  if (b =? 0)%Z then Err ZeroDivisionError
  else if (a mod b =? 0)%Z then Ok tt else Err AssertionError.

(** [DataLoader(dataset=.., batch_size=batch_size, num_workers=num_workers,
    pin_memory=True, sampler=..)]: what the library's constructor checks of
    these arguments.  It raises [ValueError] for a negative number of
    workers, and (in the batch sampler it builds) for a batch size that is
    not positive. *)
Definition DataLoader (batch_size num_workers : Z) : Result unit :=
  if (num_workers <? 0)%Z then Err ValueError
  else if (batch_size <=? 0)%Z then Err ValueError
  else Ok tt.

(** Lines 150-223, on the world built by lines 87-126. *)
Definition run (args : Args) : M unit :=
  lift (assert_divisible (bs args) (world_size args));;
  let per_device_batch_size := (bs args / world_size args)%Z in
  lift (DataLoader per_device_batch_size (workers args));;
  lift (DataLoader per_device_batch_size (workers args));;
  for_each (run_epoch args per_device_batch_size) tt (range (epochs args));;
  (if (rank args =? 0)%Z then to_parquet else mret tt).

(** Lines 88-126: the log, the two parameter groups, the optimizer and,
    without warmup, the scheduler. *)
Definition initial_world (args : Args) : World :=
  let log := mkLog [] [] [] [] in
  let '(param_weights, param_biases) := partition_params model_parameters [] [] in
  let parameters := [param_weights; param_biases] in
  let optimizer := LARS_init parameters (lr args) (wd args) true true in
  let '(scheduler, optimizer) :=
    if negb (warm args)
    then let '(s, opt) := CosineAnnealingLR optimizer (epochs args) in (Some s, opt)
    else (None, optimizer) in
  mkWorld (list_to_map model_parameters) optimizer scheduler log [] None.

Definition main_worker (gpu : Z) (args : Args) : Result unit * World :=
  let args := with_rank args (rank args + gpu) in
  run args (initial_world args).

(** *** Notions the properties of the loop are stated with *)

(** [traces m evs]: [m] performs the events [evs] in this order, all of
    them when it returns, a prefix of them when it raises. *)
Definition traces {A} (m : M A) (evs : list Event) : Prop :=
  ∀ w, ∃ performed,
    w_events (m w).2 = w_events w ++ performed ∧
    performed `prefix_of` evs ∧
    (∀ a, (m w).1 = Ok a → performed = evs).

(** The events of one pass of the training loop body. *)
Definition training_step_events (args : Args) : list Event :=
  [if warm args then EvAdjustLearningRate else EvSchedulerStep;
   EvForward; EvLoss; EvZeroGrad; EvBackward; EvOptimizerStep].

(** [preserves I m]: the world [m] ends in, returning or raising,
    satisfies [I] when the one it starts in does. *)
Definition preserves {A} (I : World → Prop) (m : M A) : Prop :=
  ∀ w, I w → I (m w).2.

(** The members of the groups, in the order of the groups. *)
Definition has_groups (gp : list (list nat)) (w : World) : Prop :=
  g_params <$> param_groups (w_optimizer w) = gp.

Definition with_log (w : World) (l : Log) : World :=
  mkWorld (w_heap w) (w_optimizer w) (w_scheduler w) l (w_events w) (w_saved w).

Definition add_events (w : World) (evs : list Event) : World :=
  mkWorld (w_heap w) (w_optimizer w) (w_scheduler w) (w_log w)
          (w_events w ++ evs) (w_saved w).

(** A property of the log and of what is saved. *)
Definition on_log (P : Log → option Log → Prop) (w : World) : Prop :=
  P (w_log w) (w_saved w).

(** What a training step needs of the world: two groups to write the rates
    to in warmup mode, the scheduler otherwise. *)
Definition ready (args : Args) (w : World) : Prop :=
  if warm args then (2 <= length (param_groups (w_optimizer w)))%nat
  else is_Some (w_scheduler w).

(** A loader that yields a batch, and no batch without samples. *)
Definition nonempty_batches (l : list (Img * labels)) : Prop :=
  l ≠ [] ∧ Forall (λ b, b.2 ≠ []) l.

(** The optimizer as the schedule of the mode leaves it, before the
    training step proper. *)
Definition scheduled (args : Args) (len_loader step : Z) (w : World) (opt1 : LARS) : Prop :=
  if warm args then adjust_learning_rate args (w_optimizer w) len_loader step = Ok opt1
  else ∃ s s1, w_scheduler w = Some s ∧ scheduler_step s (w_optimizer w) = (s1, opt1).

End WorkerLoop.

(** ** Notions the properties are stated with *)

(** What a pass over a parameter with gradient [gr] stores. *)
Definition new_mu (g : Group) (p : Param) (gr : tensor) (old : option tensor)
    (dp : tensor) : tensor :=
  tadd (tmul (default (zeros_like (p_data p)) old) (g_momentum g)) dp.

Definition new_param (g : Group) (p : Param) (mu : tensor) : Param :=
  with_data p (tadd_alpha (p_data p) mu (- g_lr g)).

(** The momentum and descent updates in the words of the specification. *)
Definition spec_momentum (momentum : R) (mu g : tensor) : tensor :=
  zip_with (fun m x => momentum * m + x) mu g.

Definition spec_descent (lr : R) (p mu : tensor) : tensor :=
  zip_with (fun x m => x - lr * m) p mu.




Definition is_bias (x : nat * Param) : Prop := p_ndim x.2 = 1%nat.

#[global] Instance is_bias_dec (x : nat * Param) : Decision (is_bias x).
Proof. unfold is_bias. apply _. Defined.

#[global] Instance Event_eq_dec : EqDecision Event.
Proof. solve_decision. Defined.

(** [occurs_before a b l]: both events occur in [l], and [a] first occurs
    before [b] first occurs. *)
Definition occurs_before (a b : Event) (l : list Event) : Prop :=
  match list_find (eq a) l, list_find (eq b) l with
  | Some (i, _), Some (j, _) => (i < j)%nat
  | _, _ => False
  end.

(** ** Inputs of the examples *)

Definition args_10_epochs : Args := mkArgs 256 10 0.01 true 0.2 0.0048 5e-4 0 1 4.
Definition args_9_epochs : Args := mkArgs 256 9 0.01 true 0.2 0.0048 5e-4 0 1 4.

Definition two_groups : LARS :=
  mkLARS [mkGroup [0%nat] 0.01 5e-4 0.9 0.001 true true;
          mkGroup [1%nat] 0.01 5e-4 0.9 0.001 true true] ∅.

Definition weight_group : Group := mkGroup [0%nat] 0.01 5e-4 0.9 0.001 true true.

Definition bias_group (weight_decay : R) : Group :=
  mkGroup [1%nat] 0.01 weight_decay 0.9 0.001 true true.


Definition one_bias : gmap nat Param := {[1%nat := mkParam [1] (Some [2]) 1]}.
Definition bias_optimizer : LARS := mkLARS [bias_group 0] ∅.

Definition moving_bias : gmap nat Param := {[1%nat := mkParam [1] (Some [0]) 1]}.
Definition moving_optimizer : LARS := mkLARS [bias_group 0] {[1%nat := [1]]}.


Definition frozen_bias : gmap nat Param := {[1%nat := mkParam [1; 2] None 1]}.
Definition still_bias : gmap nat Param := {[1%nat := mkParam [1; 2] (Some [0; 0]) 1]}.

(** A smallest setting: a model without parameters that scores one class,
    a loss of 2 for every batch, loaders of one batch with one sample, a
    scheduler that leaves the optimizer alone. *)
Module Toy.

Definition forward (_ : gmap nat Param) (_ : unit) : logits := [[1]].
Definition criterion (_ : logits) (_ : labels) : R := 2.
Definition gradient (_ : gmap nat Param) (_ : unit) (_ : labels) : gmap nat tensor := ∅.
Definition CosineAnnealingLR (opt : LARS) (_ : Z) : unit * LARS := (tt, opt).
Definition scheduler_step (s : unit) (opt : LARS) : unit * LARS := (s, opt).
Definition model_parameters : list (nat * Param) := [].
Definition len_loader (_ : Z) : Z := 1.
Definition loader (_ _ : Z) : list (unit * labels) := [(tt, [0%nat])].

Definition args (bs epochs world_size : Z) : Args :=
  mkArgs bs epochs 0.01 false 0.2 0.0048 5e-4 0 world_size 4.

Abbreviation world0 := (initial_world CosineAnnealingLR model_parameters).

Abbreviation train_batch a :=
  (train_batch forward criterion gradient scheduler_step a 1 acc0 (0%Z, (tt, [0%nat]))).

Abbreviation main_worker :=
  (main_worker forward criterion gradient CosineAnnealingLR scheduler_step
               model_parameters len_loader loader loader).

End Toy.

(** A model of one bias vector that still holds the gradient 5 of an
    earlier step, with a backward pass that computes the gradient 2 for
    it. *)
Module Bias.

Definition gradient (_ : gmap nat Param) (_ : unit) (_ : labels) : gmap nat tensor :=
  {[1%nat := [2]]}.

Definition optimizer : LARS := mkLARS [bias_group 0] ∅.

Definition stale_world : @World unit :=
  mkWorld {[1%nat := mkParam [1] (Some [5]) 1]} optimizer (Some tt)
          (mkLog [] [] [] []) [] None.

Abbreviation train_batch :=
  (train_batch Toy.forward Toy.criterion gradient Toy.scheduler_step
               (Toy.args 32 1 2) 1 acc0 (0%Z, (tt, [0%nat]))).

End Bias.

(** A model with one weight matrix and one bias vector. *)
Definition weight_and_bias : list (nat * Param) :=
  [(0%nat, mkParam [1; 2; 3; 4] None 2); (1%nat, mkParam [5; 6] None 1)].

Definition warm_args : Args := mkArgs 32 1 0.01 true 0.2 0.0048 5e-4 0 2 4.

(** ** Notions and inputs of the further properties *)

Definition args_20_epochs : Args := mkArgs 256 20 0.01 true 0.2 0.0048 5e-4 0 1 4.

(** An int that the schedule can convert to a float.  Python raises
    [OverflowError] when it converts an int of magnitude [2^1024] or more,
    an outcome the real numbers of this model do not have; the bound
    leaves room for the products [epochs * len(loader)] and
    [10 * len(loader)] of lines 23-24. *)
Definition float_sized (n : Z) : Prop := (Z.abs n < 2 ^ 500)%Z.

(** The steps at which the schedule divides by zero. *)
Definition schedule_divides_by_zero (args : Args) (len_loader step : Z) : Prop :=
  (step < 10 * len_loader ∧ len_loader = 0)%Z ∨
  (10 * len_loader <= step ∧ epochs args * len_loader - 10 * len_loader = 0)%Z.

(** What [step()] never writes: the gradient and the rank of a parameter. *)
Definition param_meta (p : Param) : option tensor * nat := (p_grad p, p_ndim p).

(** [idle h id]: [id] has no gradient in [h]. *)
Definition idle (h : gmap nat Param) (id : nat) : Prop :=
  match h !! id with
  | Some p => p_grad p = None
  | None => True
  end.

Definition weight_optimizer : LARS := mkLARS [weight_group] ∅.
Definition one_weight : gmap nat Param := {[0%nat := mkParam [3; 4] (Some [1; 1]) 2]}.

(** The accumulators after one more evaluation batch, with the parameters
    [h]. *)
Definition eval_acc {Img : Type} (forward : gmap nat Param → Img → logits)
    (criterion : logits → labels → R) (h : gmap nat Param)
    (acc : Acc) (item : Z * (Img * labels)) : Acc :=
  accumulate (with_batch_count acc item.1)
             (criterion (forward h item.2.1) item.2.2) (forward h item.2.1) item.2.2.

(** The losses of the batches of a loader, with the parameters [h]. *)
Definition batch_losses {Img : Type} (forward : gmap nat Param → Img → logits)
    (criterion : logits → labels → R) (h : gmap nat Param)
    (batches : list (Img * labels)) : list R :=
  map (λ b, criterion (forward h b.1) b.2) batches.

(** [sum](l), added up from the left as the loop does. *)
Definition sum_from (x : R) (l : list R) : R := foldl Rplus x l.

(** The accumulators count no more correct predictions than samples. *)
Definition good_acc (acc : Acc) : Prop := (0 <= a_correct acc <= a_total acc)%Z.

Definition percent (x : R) : Prop := 0 <= x <= 100.

Definition accuracies_in_range (l : Log) : Prop :=
  Forall percent (train_acc l) ∧ Forall percent (test_acc l).

(** The number of [optimizer.step()] calls among the events. *)
Definition optimizer_steps (evs : list Event) : nat :=
  count_occ Event_eq_dec evs EvOptimizerStep.

(** The scheduler event of the mode that [args] does not select. *)
Definition other_mode_event (args : Args) : Event :=
  if warm args then EvSchedulerStep else EvAdjustLearningRate.

Definition empty_loader (_ _ : Z) : list (unit * labels) := [].

(** * Properties *)

(** ** The steps the worker loop produces *)

Lemma elem_of_range (n i : Z) : i ∈ range n ↔ (0 <= i < n)%Z.
Proof.
  unfold range. rewrite list_elem_of_fmap. split.
  - intros (k & -> & Hk). apply elem_of_seq in Hk. lia.
  - intros Hi. exists (Z.to_nat i). split; [lia |]. apply elem_of_seq. lia.
Qed.

Lemma elem_of_enumerate {A} (l : list A) (start i : Z) (x : A) :
  (i, x) ∈ enumerate l start → (start <= i < start + Z.of_nat (length l))%Z.
Proof.
  revert start. induction l as [| y l IH]; intros start Hin; simpl in *.
  - by apply elem_of_nil in Hin.
  - apply elem_of_cons in Hin as [Heq | Hin].
    + inversion Heq; subst. lia.
    + apply IH in Hin. lia.
Qed.

(** A step of epoch [epoch] lies below [epochs * len(loader)]. *)
Lemma loop_step_bounds {A} (args : Args) (batches : list A) (epoch step : Z) (x : A) :
  epoch ∈ range (epochs args) →
  (step, x) ∈ enumerate batches (epoch * Z.of_nat (length batches)) →
  (0 <= step < epochs args * Z.of_nat (length batches))%Z.
Proof.
  intros He Hs. apply elem_of_range in He. apply elem_of_enumerate in Hs. nia.
Qed.

(** ** The schedule *)

Lemma py_truediv_ok (x : R) (n : Z) : n ≠ 0%Z → py_truediv x n = Ok (x / IZR n).
Proof. intros Hn. unfold py_truediv. by apply Z.eqb_neq in Hn as ->. Qed.

Lemma py_truediv_zero (x : R) : py_truediv x 0 = Err ZeroDivisionError.
Proof. reflexivity. Qed.

Lemma schedule_lr_warmup (args : Args) (len_loader step : Z) :
  (0 <= step < 10 * len_loader)%Z →
  schedule_lr args len_loader step
  = Ok (IZR (bs args) / 256 * IZR step / IZR (10 * len_loader)).
Proof.
  intros Hs. unfold schedule_lr.
  destruct (Z.ltb_spec step (10 * len_loader)) as [_ | ?]; [| lia].
  apply py_truediv_ok. lia.
Qed.

Lemma schedule_lr_cosine (args : Args) (len_loader step : Z) :
  (10 * len_loader <= step)%Z →
  (epochs args * len_loader - 10 * len_loader ≠ 0)%Z →
  schedule_lr args len_loader step
  = let base_lr := IZR (bs args) / 256 in
    let q := 0.5 * (1 + cos (PI * IZR (step - 10 * len_loader)
                             / IZR (epochs args * len_loader - 10 * len_loader))) in
    Ok (base_lr * q + base_lr * 0.001 * (1 - q)).
Proof.
  intros Hs Hm. unfold schedule_lr.
  destruct (Z.ltb_spec step (10 * len_loader)) as [? | _]; [lia |].
  by rewrite py_truediv_ok.
Qed.

Lemma schedule_lr_unguarded (args : Args) (len_loader step : Z) :
  (10 * len_loader <= step)%Z →
  (epochs args * len_loader - 10 * len_loader = 0)%Z →
  schedule_lr args len_loader step = Err ZeroDivisionError.
Proof.
  intros Hs Hm. unfold schedule_lr.
  destruct (Z.ltb_spec step (10 * len_loader)) as [? | _]; [lia |].
  by rewrite Hm.
Qed.

(** The schedule returns a rate at every step below [epochs * len(loader)]. *)
Lemma schedule_lr_total (args : Args) (len_loader step : Z) :
  (0 <= step < epochs args * len_loader)%Z →
  ∃ lr, schedule_lr args len_loader step = Ok lr.
Proof.
  intros Hs. destruct (Z.lt_ge_cases step (10 * len_loader)).
  - eexists. apply schedule_lr_warmup. lia.
  - eexists. apply schedule_lr_cosine; lia.
Qed.

(** C2, as stated, fails.  With [bs = 256], [len(loader) = 1] the base rate
    is 1 and [warmup_steps = 10].  With 10 epochs, [m = 0] and the call at
    step 10 divides by zero; with 9 epochs, [m = -1] and the call at step 11
    returns the end rate 0.001, not the base rate. *)
Lemma schedule_guard_counterexample :
  (10 * 1 <= 10)%Z ∧ (epochs args_10_epochs * 1 - 10 * 1 <= 0)%Z ∧
  schedule_lr args_10_epochs 1 10 = Err ZeroDivisionError ∧
  (10 * 1 <= 11)%Z ∧ (epochs args_9_epochs * 1 - 10 * 1 <= 0)%Z ∧
  schedule_lr args_9_epochs 1 11 = Ok 0.001 ∧
  Ok 0.001 ≠ Ok (IZR (bs args_9_epochs) / 256).
Proof.
  split; [lia |]. split; [simpl; lia |]. split; [reflexivity |].
  split; [lia |]. split; [simpl; lia |]. split.
  - rewrite schedule_lr_cosine; simpl; [| lia | lia]. f_equal.
    replace (PI * IZR (11 - 10 * 1) / IZR (9 * 1 - 10 * 1)) with (- PI)
      by (change (11 - 10 * 1)%Z with 1%Z; change (9 * 1 - 10 * 1)%Z with (-1)%Z; lra).
    rewrite cos_neg, cos_PI. lra.
  - simpl. intros Heq. inversion Heq as [Hr]. lra.
Qed.

(** C2 (amended).  The schedule has no guard for [m <= 0]: at a step of the
    cosine branch with [m = 0] it raises [ZeroDivisionError].  The worker
    loop calls it only at steps [0 <= step < total_steps]; there [m <= 0]
    forces [step < warmup_steps], so the warmup branch returns
    [base_rate * step / warmup_steps] and the cosine branch is not
    reached. *)
Theorem schedule_cosine_unguarded_unreached {A} (args : Args) (batches : list A)
    (epoch step : Z) (x : A) :
  let len_loader := Z.of_nat (length batches) in
  let warmup_steps := (10 * len_loader)%Z in
  let m := (epochs args * len_loader - warmup_steps)%Z in
  (∀ step', (warmup_steps <= step')%Z → m = 0%Z →
            schedule_lr args len_loader step' = Err ZeroDivisionError) ∧
  (epoch ∈ range (epochs args) →
   (step, x) ∈ enumerate batches (epoch * len_loader) →
   (m <= 0)%Z →
   (step < warmup_steps)%Z ∧
   schedule_lr args len_loader step
   = Ok (IZR (bs args) / 256 * IZR step / IZR warmup_steps)).
Proof.
  intros len_loader warmup_steps m. split.
  - intros step' Hs Hm. by apply schedule_lr_unguarded.
  - intros He Hs Hm. pose proof (loop_step_bounds _ _ _ _ _ He Hs) as Hb.
    fold len_loader in Hb. subst m warmup_steps.
    split; [lia |]. apply schedule_lr_warmup. lia.
Qed.

Lemma schedule_cosine_unguarded_unreached_witness :
  schedule_lr args_10_epochs 1 10 = Err ZeroDivisionError ∧
  (3 < 10)%Z ∧
  schedule_lr args_10_epochs 1 3 = Ok (IZR 256 / 256 * IZR 3 / IZR 10).
Proof.
  pose proof (schedule_cosine_unguarded_unreached args_10_epochs [tt] 3 3 tt) as [H1 H2].
  split.
  - apply H1; simpl; lia.
  - apply H2.
    + apply elem_of_range. simpl. lia.
    + simpl. apply list_elem_of_here.
    + simpl. lia.
Defined.

(** C6.  At every step the worker loop produces, [adjust_learning_rate]
    succeeds, and the rate it assigns to group 0 is the schedule's output
    times the weights multiplier, the rate it assigns to group 1 the
    schedule's output times the biases multiplier; nothing else of the
    optimizer changes. *)
Theorem group_rates_multiplicative {A} (args : Args) (optimizer : LARS)
    (batches : list A) (epoch step : Z) (x : A) (g0 g1 : Group) (rest : list Group) :
  let len_loader := Z.of_nat (length batches) in
  param_groups optimizer = g0 :: g1 :: rest →
  epoch ∈ range (epochs args) →
  (step, x) ∈ enumerate batches (epoch * len_loader) →
  ∃ lr optimizer',
    schedule_lr args len_loader step = Ok lr ∧
    adjust_learning_rate args optimizer len_loader step = Ok optimizer' ∧
    g_lr <$> param_groups optimizer' !! 0%nat = Some (lr * learning_rate_weights args) ∧
    g_lr <$> param_groups optimizer' !! 1%nat = Some (lr * learning_rate_biases args) ∧
    optimizer' = mkLARS (set_lr (lr * learning_rate_weights args) g0
                         :: set_lr (lr * learning_rate_biases args) g1 :: rest)
                        (state optimizer).
Proof.
  intros len_loader Hg He Hs.
  pose proof (loop_step_bounds _ _ _ _ _ He Hs) as Hb.
  destruct (schedule_lr_total args len_loader step Hb) as [lr Hlr].
  exists lr. eexists. split; [exact Hlr |].
  unfold adjust_learning_rate. rewrite Hlr, Hg. simpl. done.
Qed.

Lemma group_rates_multiplicative_witness :
  ∃ lr optimizer',
    schedule_lr args_10_epochs 1 3 = Ok lr ∧
    adjust_learning_rate args_10_epochs two_groups 1 3 = Ok optimizer' ∧
    g_lr <$> param_groups optimizer' !! 0%nat = Some (lr * 0.2) ∧
    g_lr <$> param_groups optimizer' !! 1%nat = Some (lr * 0.0048) ∧
    optimizer' = mkLARS [set_lr (lr * 0.2) (mkGroup [0%nat] 0.01 5e-4 0.9 0.001 true true);
                         set_lr (lr * 0.0048) (mkGroup [1%nat] 0.01 5e-4 0.9 0.001 true true)]
                        ∅.
Proof.
  apply (group_rates_multiplicative args_10_epochs two_groups [tt] 3 3 tt _ _ []).
  - reflexivity.
  - apply elem_of_range. simpl. lia.
  - simpl. apply list_elem_of_here.
Defined.

(** ** LARS: the trust ratio *)

Lemma gt0_true (a : R) : 0 < a → gt0 a = true.
Proof. intros Ha. unfold gt0. by destruct (Rlt_dec 0 a). Qed.

Lemma gt0_false (a : R) : ¬ 0 < a → gt0 a = false.
Proof. intros Ha. unfold gt0. by destruct (Rlt_dec 0 a). Qed.

Lemma sum_sq_nonneg (a : tensor) : 0 <= sum_sq a.
Proof. induction a as [| x a IH]; simpl; [lra | nra]. Qed.

Lemma norm_nonneg (a : tensor) : 0 <= norm a.
Proof. apply sqrt_pos. Qed.

Lemma trust_ratio_pos (eta pn un : R) :
  0 < pn → 0 < un → trust_ratio eta pn un = Some (eta * pn / un).
Proof.
  intros Hp Hu. unfold trust_ratio, torch_where, torch_div.
  rewrite !gt0_true by done. destruct (Req_dec_T un 0); [lra | done].
Qed.

Lemma trust_ratio_one (eta pn un : R) :
  ¬ (0 < pn ∧ 0 < un) → trust_ratio eta pn un = Some 1.
Proof.
  intros Hn. unfold trust_ratio, torch_where.
  destruct (Rlt_dec 0 pn) as [Hp | Hp].
  - rewrite (gt0_true pn) by done. rewrite gt0_false; [done | tauto].
  - by rewrite gt0_false.
Qed.

(** The ratio is a finite number whatever the norms are. *)
Lemma trust_ratio_total (eta pn un : R) : ∃ q, trust_ratio eta pn un = Some q.
Proof.
  destruct (Rlt_dec 0 pn); [destruct (Rlt_dec 0 un) |].
  - eexists. by apply trust_ratio_pos.
  - exists 1. apply trust_ratio_one. tauto.
  - exists 1. apply trust_ratio_one. tauto.
Qed.

Lemma tmul_one (a : tensor) : tmul a 1 = a.
Proof.
  unfold tmul. induction a as [| x a IH]; simpl; [done |].
  rewrite IH. f_equal. lra.
Qed.

Lemma lars_adapt_total (g : Group) (p : Param) (dp : tensor) :
  ∃ dp', lars_adapt g p dp = Ok dp'.
Proof.
  unfold lars_adapt. destruct (_ || _); [| by eexists].
  destruct (trust_ratio_total (g_eta g) (norm (p_data p)) (norm dp)) as [q ->].
  by eexists.
Qed.

Lemma norm_zeros (n : nat) : norm (repeat 0 n) = 0.
Proof.
  unfold norm. replace (sum_sq (repeat 0 n)) with 0; [apply sqrt_0 |].
  induction n as [| n IH]; simpl; [done |]. rewrite <- IH. lra.
Qed.








(** ** LARS: weight decay *)



(** ** LARS: one step *)

Lemma step_param_total (g : Group) (id : nat) (s : gmap nat tensor * gmap nat Param) :
  ∃ s', step_param g id s = Ok s'.
Proof.
  unfold step_param. destruct (s.2 !! id) as [p |]; [| by eexists].
  destruct (p_grad p) as [dp |]; [| by eexists].
  destruct (lars_adapt_total g p (weight_decay_grad g p dp)) as [dp' ->].
  by eexists.
Qed.

(** A pass over one parameter leaves every other parameter and buffer as
    it was. *)
Lemma step_param_frame (g : Group) (id j : nat) (s s' : gmap nat tensor * gmap nat Param) :
  step_param g id s = Ok s' → j ≠ id →
  s'.1 !! j = s.1 !! j ∧ s'.2 !! j = s.2 !! j.
Proof.
  unfold step_param. intros Hs Hj.
  destruct (s.2 !! id) as [p |]; [| by inversion Hs].
  destruct (p_grad p) as [dp |]; [| by inversion Hs].
  destruct (lars_adapt g p (weight_decay_grad g p dp)) as [dp' |]; [| done].
  inversion Hs; subst. destruct s as [st h]. simpl.
  by rewrite !lookup_insert_ne.
Qed.

(** A parameter without gradient is passed over. *)
Lemma step_param_no_grad (g : Group) (id : nat) (p : Param)
    (s : gmap nat tensor * gmap nat Param) :
  s.2 !! id = Some p → p_grad p = None → step_param g id s = Ok s.
Proof. intros Hp Hg. unfold step_param. by rewrite Hp, Hg. Qed.

Lemma step_param_at (g : Group) (id : nat) (p : Param) (gr : tensor)
    (s : gmap nat tensor * gmap nat Param) :
  s.2 !! id = Some p → p_grad p = Some gr →
  ∃ dp s',
    lars_adapt g p (weight_decay_grad g p gr) = Ok dp ∧
    step_param g id s = Ok s' ∧
    s'.1 !! id = Some (new_mu g p gr (s.1 !! id) dp) ∧
    s'.2 !! id = Some (new_param g p (new_mu g p gr (s.1 !! id) dp)).
Proof.
  intros Hp Hg.
  destruct (lars_adapt_total g p (weight_decay_grad g p gr)) as [dp Hdp].
  exists dp. eexists. split; [done |].
  unfold step_param. rewrite Hp, Hg. simpl. rewrite Hdp. simpl.
  split; [done |]. destruct s as [st h]. simpl.
  rewrite !lookup_insert_eq. unfold new_mu, new_param, momentum_buffer.
  by destruct (st !! id).
Qed.

Lemma step_params_total (g : Group) (ids : list nat) (s : gmap nat tensor * gmap nat Param) :
  ∃ s', step_params g ids s = Ok s'.
Proof.
  revert s. induction ids as [| id ids IH]; intros s; simpl; [by eexists |].
  destruct (step_param_total g id s) as [s1 ->]. simpl. apply IH.
Qed.

Lemma step_params_frame (g : Group) (ids : list nat) (j : nat)
    (s s' : gmap nat tensor * gmap nat Param) :
  step_params g ids s = Ok s' → j ∉ ids →
  s'.1 !! j = s.1 !! j ∧ s'.2 !! j = s.2 !! j.
Proof.
  revert s. induction ids as [| id ids IH]; intros s Hs Hj; simpl in Hs.
  - by inversion Hs.
  - apply not_elem_of_cons in Hj as [Hne Hj].
    destruct (step_param g id s) as [s1 |] eqn:H1; [| done]. simpl in Hs.
    destruct (step_param_frame _ _ _ _ _ H1 Hne) as [Ha Hb].
    destruct (IH _ Hs Hj) as [Hc Hd]. split; congruence.
Qed.

Lemma step_params_at (g : Group) (ids : list nat) (id : nat) (p : Param) (gr : tensor)
    (s : gmap nat tensor * gmap nat Param) :
  NoDup ids → id ∈ ids → s.2 !! id = Some p → p_grad p = Some gr →
  ∃ dp s',
    lars_adapt g p (weight_decay_grad g p gr) = Ok dp ∧
    step_params g ids s = Ok s' ∧
    s'.1 !! id = Some (new_mu g p gr (s.1 !! id) dp) ∧
    s'.2 !! id = Some (new_param g p (new_mu g p gr (s.1 !! id) dp)).
Proof.
  revert s. induction ids as [| j ids IH]; intros s Hnd Hin Hp Hg.
  - by apply elem_of_nil in Hin.
  - apply NoDup_cons in Hnd as [Hj Hnd]. simpl.
    destruct (decide (j = id)) as [-> | Hne].
    + destruct (step_param_at g id p gr s Hp Hg) as (dp & s1 & Hdp & H1 & Hmu & Hpar).
      destruct (step_params_total g ids s1) as [s' H2].
      exists dp, s'. rewrite H1. simpl. split; [done |]. split; [done |].
      destruct (step_params_frame _ _ _ _ _ H2 Hj) as [-> ->]. done.
    + apply elem_of_cons in Hin as [? | Hin]; [congruence |].
      destruct (step_param_total g j s) as [s1 H1]. rewrite H1. simpl.
      destruct (step_param_frame g j id s s1 H1) as [Hst Hh]; [congruence |].
      rewrite <- Hst. apply IH; [done | done | by rewrite Hh | done].
Qed.

Lemma step_groups_total (gs : list Group) (s : gmap nat tensor * gmap nat Param) :
  ∃ s', step_groups gs s = Ok s'.
Proof.
  revert s. induction gs as [| g gs IH]; intros s; simpl; [by eexists |].
  destruct (step_params_total g (g_params g) s) as [s1 ->]. simpl. apply IH.
Qed.

(** [step()] returns, and no tensor leaves the finite numbers. *)
Lemma LARS_step_total (opt : LARS) (h : gmap nat Param) :
  ∃ opt' h', LARS_step opt h = Ok (opt', h') ∧ param_groups opt' = param_groups opt.
Proof.
  unfold LARS_step.
  destruct (step_groups_total (param_groups opt) (state opt, h)) as [s' ->].
  simpl. by eexists _, _.
Qed.

Lemma step_groups_frame (gs : list Group) (j : nat)
    (s s' : gmap nat tensor * gmap nat Param) :
  step_groups gs s = Ok s' → j ∉ concat (g_params <$> gs) →
  s'.1 !! j = s.1 !! j ∧ s'.2 !! j = s.2 !! j.
Proof.
  revert s. induction gs as [| g gs IH]; intros s Hs Hj; simpl in *.
  - by inversion Hs.
  - apply not_elem_of_app in Hj as [Hj1 Hj2].
    destruct (step_params g (g_params g) s) as [s1 |] eqn:H1; [| done]. simpl in Hs.
    destruct (step_params_frame _ _ _ _ _ H1 Hj1) as [Ha Hb].
    destruct (IH _ Hs Hj2) as [Hc Hd]. split; congruence.
Qed.

Lemma elem_of_group_params (gs : list Group) (k : nat) (g : Group) (id : nat) :
  gs !! k = Some g → id ∈ g_params g → id ∈ concat (g_params <$> gs).
Proof.
  revert k. induction gs as [| g0 gs IH]; intros [| k] Hk Hin; simpl in *; try done.
  - inversion Hk; subst. apply elem_of_app. by left.
  - apply elem_of_app. right. by eapply IH.
Qed.

Lemma step_groups_at (gs : list Group) (k : nat) (g : Group) (id : nat) (p : Param)
    (gr : tensor) (s : gmap nat tensor * gmap nat Param) :
  NoDup (concat (g_params <$> gs)) → gs !! k = Some g → id ∈ g_params g →
  s.2 !! id = Some p → p_grad p = Some gr →
  ∃ dp s',
    lars_adapt g p (weight_decay_grad g p gr) = Ok dp ∧
    step_groups gs s = Ok s' ∧
    s'.1 !! id = Some (new_mu g p gr (s.1 !! id) dp) ∧
    s'.2 !! id = Some (new_param g p (new_mu g p gr (s.1 !! id) dp)).
Proof.
  revert k s. induction gs as [| g0 gs IH]; intros k s Hnd Hk Hin Hp Hg; [done |].
  simpl in Hnd. apply NoDup_app in Hnd as (Hnd0 & Hdisj & Hnd).
  destruct k as [| k]; simpl in Hk.
  - inversion Hk; subst g0.
    destruct (step_params_at g (g_params g) id p gr s Hnd0 Hin Hp Hg)
      as (dp & s1 & Hdp & H1 & Hmu & Hpar).
    destruct (step_groups_total gs s1) as [s' H2].
    exists dp, s'. simpl. rewrite H1. simpl. split; [done |]. split; [done |].
    destruct (step_groups_frame _ _ _ _ H2 (Hdisj _ Hin)) as [-> ->]. done.
  - assert (id ∈ concat (g_params <$> gs)) as Hin'.
    { by eapply elem_of_group_params. }
    assert (id ∉ g_params g0) as Hnot by (intros ?; by eapply Hdisj).
    destruct (step_params_total g0 (g_params g0) s) as [s1 H1].
    simpl. rewrite H1. simpl.
    destruct (step_params_frame _ _ _ _ _ H1 Hnot) as [Hst Hh].
    rewrite <- Hst. eapply IH; [done | done | done | by rewrite Hh | done].
Qed.

(** A parameter without gradient, and its buffer, are as they were after
    any number of passes of the loop body. *)
Lemma step_param_absent (g : Group) (j id : nat) (p : Param)
    (s s' : gmap nat tensor * gmap nat Param) :
  s.2 !! id = Some p → p_grad p = None → step_param g j s = Ok s' →
  s'.1 !! id = s.1 !! id ∧ s'.2 !! id = s.2 !! id.
Proof.
  intros Hp Hg Hs. destruct (decide (id = j)) as [-> | Hne].
  - rewrite (step_param_no_grad g j p s Hp Hg) in Hs. by inversion Hs.
  - by eapply step_param_frame.
Qed.

Lemma step_params_absent (g : Group) (ids : list nat) (id : nat) (p : Param)
    (s s' : gmap nat tensor * gmap nat Param) :
  s.2 !! id = Some p → p_grad p = None → step_params g ids s = Ok s' →
  s'.1 !! id = s.1 !! id ∧ s'.2 !! id = s.2 !! id.
Proof.
  revert s. induction ids as [| j ids IH]; intros s Hp Hg Hs; simpl in Hs.
  - by inversion Hs.
  - destruct (step_param g j s) as [s1 |] eqn:H1; [| done]. simpl in Hs.
    destruct (step_param_absent _ _ _ _ _ _ Hp Hg H1) as [Ha Hb].
    destruct (IH s1) as [Hc Hd]; [congruence | done | done |].
    split; congruence.
Qed.

Lemma step_groups_absent (gs : list Group) (id : nat) (p : Param)
    (s s' : gmap nat tensor * gmap nat Param) :
  s.2 !! id = Some p → p_grad p = None → step_groups gs s = Ok s' →
  s'.1 !! id = s.1 !! id ∧ s'.2 !! id = s.2 !! id.
Proof.
  revert s. induction gs as [| g gs IH]; intros s Hp Hg Hs; simpl in Hs.
  - by inversion Hs.
  - destruct (step_params g (g_params g) s) as [s1 |] eqn:H1; [| done]. simpl in Hs.
    destruct (step_params_absent _ _ _ _ _ _ Hp Hg H1) as [Ha Hb].
    destruct (IH s1) as [Hc Hd]; [congruence | done | done |].
    split; congruence.
Qed.

Lemma tadd_tmul_spec (c : R) (mu dp : tensor) :
  tadd (tmul mu c) dp = spec_momentum c mu dp.
Proof.
  unfold tadd, tmul, spec_momentum. revert dp.
  induction mu as [| m mu IH]; intros [| x dp]; simpl; try done.
  rewrite IH. f_equal. lra.
Qed.

Lemma tadd_alpha_spec (lr : R) (p mu : tensor) :
  tadd_alpha p mu (- lr) = spec_descent lr p mu.
Proof.
  unfold tadd_alpha, spec_descent. revert mu.
  induction p as [| x p IH]; intros [| m mu]; simpl; try done.
  rewrite IH. f_equal. lra.
Qed.








(** ** LARS: parameters with nothing to update *)

Lemma tmul_zeros (n : nat) (c : R) : tmul (repeat 0 n) c = repeat 0 n.
Proof.
  unfold tmul. induction n as [| n IH]; simpl; [done |].
  rewrite IH. f_equal. lra.
Qed.

Lemma tadd_zeros (n : nat) : tadd (repeat 0 n) (repeat 0 n) = repeat 0 n.
Proof.
  unfold tadd. induction n as [| n IH]; simpl; [done |].
  rewrite IH. f_equal. lra.
Qed.

Lemma tadd_alpha_zeros_r (a : tensor) (c : R) : tadd_alpha a (repeat 0 (length a)) c = a.
Proof.
  unfold tadd_alpha. induction a as [| x a IH]; simpl; [done |].
  rewrite IH. f_equal. lra.
Qed.

Lemma tadd_alpha_zeros_l (a : tensor) :
  tadd_alpha (repeat 0 (length a)) a 0 = repeat 0 (length a).
Proof.
  unfold tadd_alpha. induction a as [| x a IH]; simpl; [done |].
  rewrite IH. f_equal. lra.
Qed.

Lemma with_data_id (p : Param) : with_data p (p_data p) = p.
Proof. by destruct p. Qed.

(** A zero gradient stays zero through the adaptation. *)
Lemma lars_adapt_zeros (g : Group) (p : Param) (n : nat) :
  lars_adapt g p (repeat 0 n) = Ok (repeat 0 n).
Proof.
  unfold lars_adapt. destruct (_ || _); [| done].
  rewrite norm_zeros, trust_ratio_one by lra. by rewrite tmul_one.
Qed.

(** C5, as stated, fails.  A rank-1 parameter 1 with zero gradient, no
    decay, and the buffer 1 left by earlier steps: [step()] turns the
    buffer into 0.9 and the parameter into 0.991. *)
Lemma zero_gradient_counterexample :
  ∃ opt' h',
    p_grad <$> moving_bias !! 1%nat = Some (Some [0]) ∧
    LARS_step moving_optimizer moving_bias = Ok (opt', h') ∧
    state opt' !! 1%nat = Some [1 * 0.9 + 0] ∧
    state opt' !! 1%nat ≠ state moving_optimizer !! 1%nat ∧
    p_data <$> h' !! 1%nat = Some [1 + - (0.01) * (1 * 0.9 + 0)] ∧
    h' !! 1%nat ≠ moving_bias !! 1%nat.
Proof.
  destruct (step_groups_at [bias_group 0] 0 (bias_group 0) 1
              (mkParam [1] (Some [0]) 1) [0] ({[1%nat := [1]]}, moving_bias))
    as (dp & s' & Hdp & Hs & Hmu & Hpar).
  - simpl. apply NoDup_singleton.
  - reflexivity.
  - simpl. apply list_elem_of_here.
  - apply lookup_singleton_eq.
  - reflexivity.
  - change (Ok [0] = Ok dp) in Hdp. inversion Hdp; subst dp.
    cbn [fst snd] in Hmu, Hpar. rewrite lookup_singleton_eq in Hmu, Hpar.
    change (s'.1 !! 1%nat = Some [1 * 0.9 + 0]) in Hmu.
    change (s'.2 !! 1%nat
            = Some (mkParam [1 + - (0.01) * (1 * 0.9 + 0)] (Some [0]) 1)) in Hpar.
    exists (mkLARS [bias_group 0] s'.1), s'.2.
    split; [unfold moving_bias; by rewrite lookup_singleton_eq |].
    split; [unfold LARS_step, moving_optimizer; cbn [param_groups state]; by rewrite Hs |].
    cbn [state]. split; [done |]. split; [| split].
    + rewrite Hmu. unfold moving_optimizer. cbn [state].
      rewrite lookup_singleton_eq. intros Heq. inversion Heq as [Hr]. lra.
    + by rewrite Hpar.
    + rewrite Hpar. unfold moving_bias. rewrite lookup_singleton_eq.
      intros Heq. inversion Heq as [Hr]. lra.
Qed.

(** C5 (amended).  A parameter without gradient is passed over: [step()]
    returns, and the parameter and its buffer are as before.  A parameter
    with zero gradient keeps its value, and its buffer is zero after
    [step()], when no decay term is added to its gradient (rank 1 under
    [weight_decay_filter], or [weight_decay = 0]) and its buffer is zero or
    not yet created before the step. *)
Theorem LARS_step_nothing_to_update (opt : LARS) (h : gmap nat Param) (id : nat) (p : Param) :
  h !! id = Some p →
  (p_grad p = None →
   ∃ opt' h', LARS_step opt h = Ok (opt', h') ∧
              h' !! id = Some p ∧ state opt' !! id = state opt !! id) ∧
  (∀ k g,
     p_grad p = Some (zeros_like (p_data p)) →
     NoDup (concat (g_params <$> param_groups opt)) →
     param_groups opt !! k = Some g → id ∈ g_params g →
     (g_weight_decay_filter g = true ∧ p_ndim p = 1%nat) ∨ g_weight_decay g = 0 →
     state opt !! id = None ∨ state opt !! id = Some (zeros_like (p_data p)) →
     ∃ opt' h', LARS_step opt h = Ok (opt', h') ∧
                h' !! id = Some p ∧ state opt' !! id = Some (zeros_like (p_data p))).
Proof.
  intros Hp. split.
  - intros Hg. unfold LARS_step.
    destruct (step_groups_total (param_groups opt) (state opt, h)) as [s' Hs].
    rewrite Hs. simpl. eexists _, _. split; [done |].
    destruct (step_groups_absent _ id p (state opt, h) _ Hp Hg Hs) as [Ha Hb]. simpl in *.
    split; congruence.
  - intros k g Hg Hnd Hk Hin Hdecay Hbuf.
    destruct (step_groups_at (param_groups opt) k g id p _ (state opt, h)
                Hnd Hk Hin Hp Hg) as (dp & s' & Hdp & Hs & Hmu & Hpar).
    assert (weight_decay_grad g p (zeros_like (p_data p)) = zeros_like (p_data p)) as Hwd.
    { unfold weight_decay_grad, exclude_bias_and_norm, zeros_like.
      destruct Hdecay as [[-> ->] | ->]; [done |].
      destruct (_ || _); [| done]. apply tadd_alpha_zeros_l. }
    rewrite Hwd in Hdp. unfold zeros_like in Hdp. rewrite lars_adapt_zeros in Hdp.
    inversion Hdp; subst dp.
    assert (new_mu g p (zeros_like (p_data p)) (state opt !! id)
                   (repeat 0 (length (p_data p))) = zeros_like (p_data p)) as Hnew.
    { unfold new_mu. destruct Hbuf as [-> | ->]; cbn [from_option];
        unfold Datatypes.id, zeros_like; by rewrite tmul_zeros, tadd_zeros. }
    simpl in Hmu, Hpar. unfold zeros_like in Hnew, Hmu, Hpar. rewrite Hnew in Hmu, Hpar.
    unfold LARS_step. rewrite Hs. simpl. eexists _, _. split; [done |].
    split; [| done]. rewrite Hpar. unfold new_param.
    by rewrite tadd_alpha_zeros_r, with_data_id.
Qed.

Lemma LARS_step_nothing_to_update_witness :
  (∃ opt' h', LARS_step moving_optimizer frozen_bias = Ok (opt', h') ∧
              h' !! 1%nat = Some (mkParam [1; 2] None 1) ∧
              state opt' !! 1%nat = state moving_optimizer !! 1%nat) ∧
  (∃ opt' h', LARS_step bias_optimizer still_bias = Ok (opt', h') ∧
              h' !! 1%nat = Some (mkParam [1; 2] (Some [0; 0]) 1) ∧
              state opt' !! 1%nat = Some [0; 0]).
Proof.
  split.
  - apply (LARS_step_nothing_to_update moving_optimizer frozen_bias 1
             (mkParam [1; 2] None 1) (lookup_singleton_eq _ _)).
    reflexivity.
  - apply (proj2 (LARS_step_nothing_to_update bias_optimizer still_bias 1
                    (mkParam [1; 2] (Some [0; 0]) 1) (lookup_singleton_eq _ _))
             0%nat (bias_group 0)).
    + reflexivity.
    + simpl. apply NoDup_singleton.
    + reflexivity.
    + simpl. apply list_elem_of_here.
    + left. split; reflexivity.
    + left. reflexivity.
Defined.

(** ** The two parameter groups *)

Lemma partition_params_filter (params : list (nat * Param)) (pw pb : list nat) :
  partition_params params pw pb
  = (pw ++ (filter (λ x, ¬ is_bias x) params).*1, pb ++ (filter is_bias params).*1).
Proof.
  revert pw pb. induction params as [| [id p] params IH]; intros pw pb; simpl.
  - by rewrite !app_nil_r.
  - rewrite !filter_cons.
    destruct (Nat.eqb_spec (p_ndim p) 1) as [Heq | Hne]; rewrite IH.
    + rewrite (decide_True (P := is_bias (id, p))) by done.
      rewrite (decide_False (P := ¬ is_bias (id, p))) by (unfold is_bias; tauto).
      simpl. by rewrite <- app_assoc.
    + rewrite (decide_False (P := is_bias (id, p))) by done.
      rewrite (decide_True (P := ¬ is_bias (id, p))) by done.
      simpl. by rewrite <- app_assoc.
Qed.

Lemma filter_split_perm {A} (P : A → Prop) `{∀ x, Decision (P x)} (l : list A) :
  filter (λ x, ¬ P x) l ++ filter P l ≡ₚ l.
Proof.
  induction l as [| x l IH]; [done |].
  rewrite !filter_cons. destruct (decide (P x)).
  - rewrite decide_False by tauto. rewrite <- Permutation_middle. by constructor.
  - rewrite decide_True by done. simpl. by constructor.
Qed.

(** ** The worker loop *)

Section WorkerLoopFacts.

Context {Img Sched : Type}.
Variable forward : gmap nat Param -> Img -> logits.
Variable criterion : logits -> labels -> R.
Variable gradient : gmap nat Param -> Img -> labels -> gmap nat tensor.
Variable CosineAnnealingLR : LARS -> Z -> Sched * LARS.
Variable scheduler_step : Sched -> LARS -> Sched * LARS.
Variable model_parameters : list (nat * Param).
Variable len_train_loader : Z -> Z.
Variable train_loader : Z -> Z -> list (Img * labels).
Variable test_loader : Z -> Z -> list (Img * labels).

Abbreviation World := (@World Sched).
Abbreviation M := (@M Sched).
Abbreviation train_batch := (train_batch forward criterion gradient scheduler_step).
Abbreviation eval_batch := (eval_batch forward criterion).
Abbreviation train_loop :=
  (train_loop forward criterion gradient scheduler_step len_train_loader train_loader).
Abbreviation test_loop := (test_loop forward criterion test_loader).
Abbreviation has_groups := (@has_groups Sched).
Abbreviation record_train := (@record_train Sched).
Abbreviation record_test := (@record_test Sched).
Abbreviation run_epoch :=
  (run_epoch forward criterion gradient scheduler_step len_train_loader
             train_loader test_loader).
Abbreviation run :=
  (run forward criterion gradient scheduler_step len_train_loader
       train_loader test_loader).
Abbreviation initial_world := (initial_world CosineAnnealingLR model_parameters).
Abbreviation main_worker :=
  (main_worker forward criterion gradient CosineAnnealingLR scheduler_step
               model_parameters len_train_loader train_loader test_loader).

(** *** Running a sequence of operations *)

Lemma bind_ok {A B} (m : M A) (f : A → M B) (w w1 : World) (a : A) :
  m w = (Ok a, w1) → (m ≫= f) w = f a w1.
Proof. intros H. unfold mbind, M_bind. by rewrite H. Qed.

Lemma bind_err {A B} (m : M A) (f : A → M B) (w w1 : World) (e : PyError) :
  m w = (Err e, w1) → (m ≫= f) w = (Err e, w1).
Proof. intros H. unfold mbind, M_bind. by rewrite H. Qed.

Lemma bind_ok_inv {A B} (m : M A) (f : A → M B) (w w' : World) (b : B) :
  (m ≫= f) w = (Ok b, w') → ∃ a w1, m w = (Ok a, w1) ∧ f a w1 = (Ok b, w').
Proof.
  unfold mbind, M_bind. destruct (m w) as [[a | e] w1]; intros H; [| done].
  by exists a, w1.
Qed.

Lemma lift_bind_ok_inv {A B} (r : Result A) (f : A → M B) (w w' : World) (b : B) :
  ((lift r : M A) ≫= f) w = (Ok b, w') → ∃ a, r = Ok a ∧ f a w = (Ok b, w').
Proof.
  intros H. apply bind_ok_inv in H as (a & w1 & H1 & H).
  unfold lift in H1. inversion H1; subst. by exists a.
Qed.

(** *** The events of an operation *)

Lemma traces_ret {A} (a : A) : traces (mret a : M A) [].
Proof. intros w. exists []. simpl. by rewrite app_nil_r. Qed.

Lemma traces_lift {A} (r : Result A) : traces (lift r : M A) [].
Proof. intros w. exists []. simpl. by rewrite app_nil_r. Qed.

Lemma traces_get : traces (get : M World) [].
Proof. intros w. exists []. simpl. by rewrite app_nil_r. Qed.

Lemma traces_emit (e : Event) : traces (emit e : M unit) [e].
Proof. intros w. exists [e]. simpl. done. Qed.

Lemma traces_set_machine h opt s : traces (set_machine h opt s : M unit) [].
Proof. intros w. exists []. simpl. by rewrite app_nil_r. Qed.

Lemma traces_set_log l : traces (set_log l : M unit) [].
Proof. intros w. exists []. simpl. by rewrite app_nil_r. Qed.

Lemma traces_bind {A B} (m : M A) (f : A → M B) (e1 e2 : list Event) :
  traces m e1 → (∀ a, traces (f a) e2) → traces (m ≫= f) (e1 ++ e2).
Proof.
  intros Hm Hf w. destruct (Hm w) as (p1 & Hev1 & Hpre1 & Hall1).
  unfold mbind, M_bind. destruct (m w) as [[a | e] w1]; simpl in *.
  - destruct (Hf a w1) as (p2 & Hev2 & Hpre2 & Hall2).
    rewrite (Hall1 a eq_refl) in Hev1.
    exists (e1 ++ p2). rewrite Hev2, Hev1, app_assoc. split; [done |]. split.
    + by apply prefix_app.
    + intros b Hb. by rewrite (Hall2 b Hb).
  - exists p1. split; [done |]. split; [| done].
    by apply prefix_app_r.
Qed.

Lemma traces_bind_nil_l {A B} (m : M A) (f : A → M B) (e2 : list Event) :
  traces m [] → (∀ a, traces (f a) e2) → traces (m ≫= f) e2.
Proof. intros Hm Hf. by apply (traces_bind m f [] e2). Qed.

Lemma traces_bind_nil_r {A B} (m : M A) (f : A → M B) (e1 : list Event) :
  traces m e1 → (∀ a, traces (f a) []) → traces (m ≫= f) e1.
Proof.
  intros Hm Hf. rewrite <- (app_nil_r e1). by apply traces_bind.
Qed.

Lemma traces_bind_cons {A B} (m : M A) (f : A → M B) (e : Event) (e2 : list Event) :
  traces m [e] → (∀ a, traces (f a) e2) → traces (m ≫= f) (e :: e2).
Proof. intros Hm Hf. by apply (traces_bind m f [e] e2). Qed.

Ltac trace_step :=
  first
    [ apply traces_ret | apply traces_lift | apply traces_get | apply traces_emit
    | apply traces_set_machine | apply traces_set_log
    | eapply traces_bind_cons; [solve [trace_step] | intros]
    | eapply traces_bind_nil_l; [solve [trace_step] | intros] ].

Lemma traces_do_adjust_learning_rate (args : Args) (len_loader step : Z) :
  traces (do_adjust_learning_rate args len_loader step : M unit) [EvAdjustLearningRate].
Proof. unfold do_adjust_learning_rate. repeat trace_step. Qed.

Lemma traces_do_scheduler_step :
  traces (do_scheduler_step scheduler_step : M unit) [EvSchedulerStep].
Proof.
  unfold do_scheduler_step. repeat trace_step.
  destruct (w_scheduler _) as [s |]; [| trace_step].
  destruct (scheduler_step _ _). trace_step.
Qed.

Lemma traces_model (img : Img) : traces (model forward img : M logits) [EvForward].
Proof. unfold model. repeat trace_step. Qed.

Lemma traces_do_criterion (out : logits) (label : labels) :
  traces (do_criterion criterion out label : M R) [EvLoss].
Proof. unfold do_criterion. repeat trace_step. Qed.

Lemma traces_optimizer_zero_grad : traces (optimizer_zero_grad : M unit) [EvZeroGrad].
Proof. unfold optimizer_zero_grad. repeat trace_step. Qed.

Lemma traces_loss_backward (img : Img) (label : labels) :
  traces (loss_backward gradient img label : M unit) [EvBackward].
Proof. unfold loss_backward. repeat trace_step. Qed.

Lemma traces_optimizer_step : traces (optimizer_step : M unit) [EvOptimizerStep].
Proof.
  unfold optimizer_step. repeat trace_step. destruct a1. trace_step.
Qed.

Lemma traces_train_batch (args : Args) (len_loader : Z) (acc : Acc)
    (item : Z * (Img * labels)) :
  traces (train_batch args len_loader acc item) (training_step_events args).
Proof.
  destruct item as [step [img label]]. unfold train_batch, training_step_events.
  eapply traces_bind_cons.
  { destruct (warm args);
      [apply traces_do_adjust_learning_rate | apply traces_do_scheduler_step]. }
  intros _. eapply traces_bind_cons; [apply traces_model |]. intros out.
  eapply traces_bind_cons; [apply traces_do_criterion |]. intros loss.
  eapply traces_bind_cons; [apply traces_optimizer_zero_grad |]. intros _.
  eapply traces_bind_cons; [apply traces_loss_backward |]. intros _.
  eapply traces_bind_cons; [apply traces_optimizer_step |]. intros _.
  apply traces_ret.
Qed.

(** What one pass of the training loop body computes when it returns:
    the gradients are cleared, this batch's gradient is accumulated into
    the cleared heap, and [step()] runs on the result. *)
Lemma train_batch_ok (args : Args) (len_loader : Z) (acc acc' : Acc)
    (step : Z) (img : Img) (label : labels) (w w' : World) :
  train_batch args len_loader acc (step, (img, label)) w = (Ok acc', w') →
  ∃ opt1 sched1,
    (if warm args
     then adjust_learning_rate args (w_optimizer w) len_loader step = Ok opt1
          ∧ sched1 = w_scheduler w
     else ∃ s s1, w_scheduler w = Some s
                  ∧ scheduler_step s (w_optimizer w) = (s1, opt1)
                  ∧ sched1 = Some s1) ∧
    w_scheduler w' = sched1 ∧
    let h1 := zero_grad opt1 (w_heap w) in
    let h2 := accumulate_grads (gradient h1 img label) h1 in
    LARS_step opt1 h2 = Ok (w_optimizer w', w_heap w') ∧
    w_log w' = w_log w ∧ w_saved w' = w_saved w ∧
    acc' = (let acc1 := with_batch_count acc step in
            if (rank args =? 0)%Z
            then accumulate acc1 (criterion (forward (w_heap w) img) label)
                            (forward (w_heap w) img) label
            else acc1).
Proof.
  intros H. unfold train_batch in H. destruct w as [h opt sch l evs sv].
  cbv [do_adjust_learning_rate do_scheduler_step model do_criterion optimizer_zero_grad
       loss_backward optimizer_step emit get set_machine lift mbind mret M_bind M_ret
       w_heap w_optimizer w_scheduler w_log w_events w_saved] in H.
  cbv [w_heap w_optimizer w_scheduler w_log w_saved].
  destruct (warm args).
  - destruct (adjust_learning_rate args opt len_loader step) as [opt1 |];
      cbv beta iota in H; [| done].
    destruct (LARS_step opt1 _) as [[opt2 h3] |] eqn:Hstep;
      cbv beta iota in H; [| done].
    inversion H; subst. exists opt1, sch. cbv [w_heap w_optimizer w_scheduler w_log w_saved].
    done.
  - destruct sch as [s |]; cbv beta iota in H; [| done].
    destruct (scheduler_step s opt) as [s1 opt1] eqn:Hsched. cbv beta iota in H.
    destruct (LARS_step opt1 _) as [[opt2 h3] |] eqn:Hstep;
      cbv beta iota in H; [| done].
    inversion H; subst. exists opt1, (Some s1).
    cbv [w_heap w_optimizer w_scheduler w_log w_saved].
    split; [by exists s, s1 |]. done.
Qed.

(** *** The world before the first epoch *)

Lemma initial_world_fresh (args : Args) :
  w_events (initial_world args) = [] ∧
  w_log (initial_world args) = mkLog [] [] [] [] ∧
  w_saved (initial_world args) = None.
Proof.
  unfold initial_world. destruct (partition_params _ _ _) as [pw pb].
  destruct (negb (warm args)); [destruct (CosineAnnealingLR _ _) |]; done.
Qed.

Lemma initial_world_scheduler (args : Args) :
  warm args = false → is_Some (w_scheduler (initial_world args)).
Proof.
  intros Hw. unfold initial_world. destruct (partition_params _ _ _) as [pw pb].
  rewrite Hw. simpl. destruct (CosineAnnealingLR _ _). by eexists.
Qed.

(** One pass of the training loop body returns when the schedule does:
    [step()] itself always returns. *)
Lemma train_batch_returns (args : Args) (len_loader : Z) (acc : Acc)
    (step : Z) (img : Img) (label : labels) (w : World) :
  (if warm args
   then ∃ opt1, adjust_learning_rate args (w_optimizer w) len_loader step = Ok opt1
   else is_Some (w_scheduler w)) →
  ∃ acc' w', train_batch args len_loader acc (step, (img, label)) w = (Ok acc', w').
Proof.
  intros H. unfold train_batch. destruct w as [h opt sch l evs sv].
  cbv [do_adjust_learning_rate do_scheduler_step model do_criterion optimizer_zero_grad
       loss_backward optimizer_step emit get set_machine lift mbind mret M_bind M_ret
       w_heap w_optimizer w_scheduler w_log w_events w_saved] in *.
  destruct (warm args).
  - destruct H as [opt1 ->]. cbv beta iota.
    destruct (LARS_step_total opt1
                (accumulate_grads (gradient (zero_grad opt1 h) img label)
                                  (zero_grad opt1 h))) as (opt2 & h3 & -> & _).
    cbv beta iota. by eexists _, _.
  - destruct H as [s ->]. cbv beta iota.
    destruct (scheduler_step s opt) as [s1 opt1]. cbv beta iota.
    destruct (LARS_step_total opt1
                (accumulate_grads (gradient (zero_grad opt1 h) img label)
                                  (zero_grad opt1 h))) as (opt2 & h3 & -> & _).
    cbv beta iota. by eexists _, _.
Qed.

(** *** What the run leaves in place *)

Lemma preserves_bind {A B} (I : World → Prop) (m : M A) (f : A → M B) :
  preserves I m → (∀ a, preserves I (f a)) → preserves I (m ≫= f).
Proof.
  intros Hm Hf w Hw. specialize (Hm w Hw). unfold mbind, M_bind.
  destruct (m w) as [[a | e] w1]; simpl in *; [by apply Hf | done].
Qed.

Lemma preserves_ret {A} (I : World → Prop) (a : A) : preserves I (mret a : M A).
Proof. by intros w Hw. Qed.

Lemma preserves_lift {A} (I : World → Prop) (r : Result A) :
  preserves I (lift r : M A).
Proof. by intros w Hw. Qed.

Lemma preserves_for_each {A B} (I : World → Prop) (body : B → A → M B)
    (acc : B) (l : list A) :
  (∀ acc x, preserves I (body acc x)) → preserves I (for_each body acc l).
Proof.
  intros Hbody. revert acc. induction l as [| x l IH]; intros acc; simpl.
  - apply preserves_ret.
  - apply preserves_bind; [apply Hbody | intros acc'; apply IH].
Qed.

Lemma assign_lr_group_params (i : nat) (v : R) (gs gs' : list Group) :
  assign_lr i v gs = Ok gs' → g_params <$> gs' = g_params <$> gs.
Proof.
  unfold assign_lr. destruct (gs !! i) as [g |] eqn:Hg; intros H; inversion H; subst.
  rewrite list_fmap_insert. simpl. apply list_insert_id.
  by rewrite list_lookup_fmap, Hg.
Qed.

Lemma adjust_learning_rate_group_params (args : Args) (opt opt' : LARS)
    (len_loader step : Z) :
  adjust_learning_rate args opt len_loader step = Ok opt' →
  g_params <$> param_groups opt' = g_params <$> param_groups opt.
Proof.
  unfold adjust_learning_rate. intros H.
  destruct (schedule_lr args len_loader step) as [lr |]; [| done]. simpl in H.
  destruct (assign_lr 0 _ _) as [gs1 |] eqn:H1; [| done]. simpl in H.
  destruct (assign_lr 1 _ _) as [gs2 |] eqn:H2; [| done]. simpl in H.
  inversion H; subst. simpl.
  apply assign_lr_group_params in H1, H2. congruence.
Qed.

Lemma preserves_train_batch (gp : list (list nat)) (args : Args) (len_loader : Z)
    (acc : Acc) (item : Z * (Img * labels)) :
  warm args = true →
  preserves (has_groups gp) (train_batch args len_loader acc item).
Proof.
  intros Hwarm w Hw. destruct item as [step [img label]].
  unfold train_batch, has_groups in *. rewrite Hwarm. destruct w as [h opt sch l evs sv].
  cbv [do_adjust_learning_rate model do_criterion optimizer_zero_grad
       loss_backward optimizer_step emit get set_machine lift mbind mret M_bind M_ret
       w_heap w_optimizer w_scheduler w_log w_events w_saved] in *.
  destruct (adjust_learning_rate args opt len_loader step) as [opt1 |] eqn:Hadj;
    cbv beta iota; [| done].
  apply adjust_learning_rate_group_params in Hadj.
  destruct (LARS_step_total opt1
              (accumulate_grads (gradient (zero_grad opt1 h) img label)
                                (zero_grad opt1 h))) as (opt2 & h3 & -> & Hgs).
  cbv beta iota. simpl. congruence.
Qed.

Lemma preserves_eval_batch (gp : list (list nat)) (acc : Acc) (item : Z * (Img * labels)) :
  preserves (has_groups gp) (eval_batch acc item).
Proof. intros w Hw. by destruct item as [step [img label]]. Qed.

Lemma preserves_record_train (gp : list (list nat)) (acc : Acc) :
  preserves (has_groups gp) (record_train acc).
Proof.
  intros w Hw. unfold record_train.
  cbv [lift get set_log mbind mret M_bind M_ret].
  destruct (py_truediv (a_loss acc) _); [| done]. cbv beta iota.
  destruct (py_truediv (100 * _) _); done.
Qed.

Lemma preserves_record_test (gp : list (list nat)) (acc : Acc) :
  preserves (has_groups gp) (record_test acc).
Proof.
  intros w Hw. unfold record_test.
  cbv [lift get set_log mbind mret M_bind M_ret].
  destruct (py_truediv (a_loss acc) _); [| done]. cbv beta iota.
  destruct (py_truediv (100 * _) _); done.
Qed.

Lemma preserves_run_epoch (gp : list (list nat)) (args : Args)
    (per_device_batch_size : Z) (u : unit) (epoch : Z) :
  warm args = true →
  preserves (has_groups gp) (run_epoch args per_device_batch_size u epoch).
Proof.
  intros Hwarm. unfold run_epoch. apply preserves_bind.
  { apply preserves_for_each. intros. by apply preserves_train_batch. }
  intros acc. apply preserves_bind.
  { destruct (rank args =? 0)%Z; [apply preserves_record_train | apply preserves_ret]. }
  intros _. destruct (rank args =? 0)%Z; [| apply preserves_ret].
  apply preserves_bind; [| intros; apply preserves_record_test].
  apply preserves_for_each. intros. apply preserves_eval_batch.
Qed.

(** In warmup mode the members of the groups are the same in every world
    the run goes through. *)
Lemma preserves_run (gp : list (list nat)) (args : Args) :
  warm args = true → preserves (has_groups gp) (run args).
Proof.
  intros Hwarm. unfold run. apply preserves_bind; [apply preserves_lift |].
  intros _. apply preserves_bind; [apply preserves_lift |].
  intros _. apply preserves_bind; [apply preserves_lift |].
  intros _. apply preserves_bind.
  { apply preserves_for_each. intros. by apply preserves_run_epoch. }
  intros _. destruct (rank args =? 0)%Z; [| apply preserves_ret]. by intros w Hw.
Qed.

Lemma initial_world_groups (args : Args) :
  warm args = true →
  has_groups [(filter (λ x, ¬ is_bias x) model_parameters).*1;
              (filter is_bias model_parameters).*1]
             (initial_world args).
Proof.
  intros Hwarm. unfold has_groups, initial_world.
  rewrite partition_params_filter, Hwarm. done.
Qed.

(** In warmup mode the optimizer that [main_worker] builds holds every
    parameter of the model in one place of one group. *)
Lemma initial_world_groups_NoDup (args : Args) :
  warm args = true → NoDup model_parameters.*1 →
  NoDup (concat (g_params <$> param_groups (w_optimizer (initial_world args)))).
Proof.
  intros Hwarm Hnd. rewrite (initial_world_groups args Hwarm). simpl.
  rewrite app_nil_r, <- fmap_app.
  by rewrite (filter_split_perm is_bias model_parameters).
Qed.

(** *** The entries of the log *)

Lemma record_train_ok (acc : Acc) (w : World) (x y : R) :
  py_truediv (a_loss acc) (a_batch_count acc + 1) = Ok x →
  py_truediv (100 * IZR (a_correct acc)) (a_total acc) = Ok y →
  record_train acc w
  = (Ok tt, with_log w (mkLog (train_loss (w_log w) ++ [x]) (train_acc (w_log w) ++ [y])
                              (test_loss (w_log w)) (test_acc (w_log w)))).
Proof.
  intros Hx Hy. unfold record_train.
  cbv [lift get set_log mbind mret M_bind M_ret]. by rewrite Hx, Hy.
Qed.

Lemma record_test_ok (acc : Acc) (w : World) (x y : R) :
  py_truediv (a_loss acc) (a_batch_count acc + 1) = Ok x →
  py_truediv (100 * IZR (a_correct acc)) (a_total acc) = Ok y →
  record_test acc w
  = (Ok tt, with_log w (mkLog (train_loss (w_log w)) (train_acc (w_log w))
                              (test_loss (w_log w) ++ [x]) (test_acc (w_log w) ++ [y]))).
Proof.
  intros Hx Hy. unfold record_test.
  cbv [lift get set_log mbind mret M_bind M_ret]. by rewrite Hx, Hy.
Qed.

Lemma eval_batch_run (acc : Acc) (step : Z) (img : Img) (label : labels) (w : World) :
  eval_batch acc (step, (img, label)) w
  = (Ok (accumulate (with_batch_count acc step)
                    (criterion (forward (w_heap w) img) label)
                    (forward (w_heap w) img) label),
     add_events w [EvForward; EvLoss]).
Proof.
  destruct w as [h opt sch l evs sv]. unfold eval_batch, add_events.
  cbv [model do_criterion emit get mbind mret M_bind M_ret
       w_heap w_optimizer w_scheduler w_log w_events w_saved].
  by rewrite <- app_assoc.
Qed.

(** After the training loop of an epoch, [batch_count] is the global
    index of the epoch's last step. *)
Lemma train_loop_batch_count (args : Args) (len_loader : Z) (batches : list (Img * labels))
    (start : Z) (acc acc' : Acc) (w w' : World) :
  for_each (train_batch args len_loader) acc (enumerate batches start) w = (Ok acc', w') →
  a_batch_count acc'
  = match batches with
    | [] => a_batch_count acc
    | _ :: _ => (start + Z.of_nat (length batches) - 1)%Z
    end.
Proof.
  revert start acc w. induction batches as [| [img label] batches IH];
    intros start acc w H; simpl in H.
  - by inversion H.
  - apply bind_ok_inv in H as (acc1 & w1 & H1 & H2).
    apply train_batch_ok in H1 as (_ & _ & _ & _ & _ & _ & _ & Hacc).
    apply IH in H2. rewrite H2. destruct batches as [| b batches].
    + subst acc1. simpl. destruct (rank args =? 0)%Z; simpl; lia.
    + simpl length. lia.
Qed.

(** The divisor of the recorded training loss: the loss sum of epoch
    [epoch] is divided by [epoch * len(train_loader)] plus the number of
    batches of the epoch. *)
Lemma train_loss_divisor (args : Args) (per_device_batch_size epoch : Z)
    (acc : Acc) (w w1 : World) :
  (0 <= epoch)%Z → (0 <= len_train_loader per_device_batch_size)%Z →
  train_loader per_device_batch_size epoch ≠ [] →
  train_loop args per_device_batch_size epoch w = (Ok acc, w1) →
  train_loss (w_log (record_train acc w1).2)
  = train_loss (w_log w1)
    ++ [a_loss acc / IZR (epoch * len_train_loader per_device_batch_size
                          + Z.of_nat (length (train_loader per_device_batch_size epoch)))].
Proof.
  intros He HL Hne H. unfold train_loop in H. apply train_loop_batch_count in H.
  destruct (train_loader per_device_batch_size epoch) as [| b batches] eqn:Hb; [done |].
  unfold record_train. cbv [lift get set_log mbind mret M_bind M_ret].
  rewrite py_truediv_ok by (rewrite H; simpl length; nia).
  replace (a_batch_count acc + 1)%Z
    with (epoch * len_train_loader per_device_batch_size
          + Z.of_nat (length (b :: batches)))%Z by lia.
  by destruct (py_truediv (100 * _) _).
Qed.

End WorkerLoopFacts.

(** *** A batch size the workers cannot share evenly *)

Lemma assert_divisible_fails (a b : Z) :
  b ≠ 0%Z → (a mod b ≠ 0)%Z → assert_divisible a b = Err AssertionError.
Proof.
  intros Hb Hm. unfold assert_divisible.
  apply Z.eqb_neq in Hb as ->. by apply Z.eqb_neq in Hm as ->.
Qed.

(** C9.  When the batch size is not a multiple of the number of workers,
    [main_worker] stops at the assertion: no operation of a training step
    has been performed, the log has no entry and nothing is saved. *)
Theorem indivisible_batch_fails_at_startup {Img Sched : Type}
    (forward : gmap nat Param → Img → logits) (criterion : logits → labels → R)
    (gradient : gmap nat Param → Img → labels → gmap nat tensor)
    (CosineAnnealingLR : LARS → Z → Sched * LARS)
    (scheduler_step : Sched → LARS → Sched * LARS)
    (model_parameters : list (nat * Param)) (len_train_loader : Z → Z)
    (train_loader test_loader : Z → Z → list (Img * labels))
    (gpu : Z) (args : Args) :
  world_size args ≠ 0%Z →
  (bs args mod world_size args ≠ 0)%Z →
  ∃ w,
    main_worker forward criterion gradient CosineAnnealingLR scheduler_step
                model_parameters len_train_loader train_loader test_loader gpu args
    = (Err AssertionError, w) ∧
    w_events w = [] ∧ w_log w = mkLog [] [] [] [] ∧ w_saved w = None.
Proof.
  intros Hws Hmod. eexists. split.
  - unfold main_worker, run. apply bind_err. unfold lift. f_equal.
    by apply assert_divisible_fails.
  - apply initial_world_fresh.
Qed.

Lemma indivisible_batch_fails_at_startup_witness :
  ∃ w,
    Toy.main_worker 0 (Toy.args 33 1 2) = (Err AssertionError, w) ∧
    w_events w = [] ∧ w_log w = mkLog [] [] [] [] ∧ w_saved w = None.
Proof.
  apply (indivisible_batch_fails_at_startup Toy.forward Toy.criterion Toy.gradient
           Toy.CosineAnnealingLR Toy.scheduler_step Toy.model_parameters
           Toy.len_loader Toy.loader Toy.loader 0 (Toy.args 33 1 2)).
  - vm_compute. lia.
  - vm_compute. lia.
Defined.

(** *** The order of the two groups *)

Lemma elem_of_filter_fst (P : nat * Param → Prop) `{∀ x, Decision (P x)}
    (params : list (nat * Param)) (id : nat) (p : Param) :
  (id, p) ∈ params → P (id, p) → id ∈ (filter P params).*1.
Proof.
  intros Hin HP. apply list_elem_of_fmap. exists (id, p). split; [done |].
  by apply list_elem_of_filter.
Qed.

(** C10.  In warmup mode: the optimizer is built with two groups, at
    index 0 the parameters whose rank is not 1 (so every parameter of rank
    above 1), at index 1 the parameters of rank 1; the two groups together
    hold each parameter of the model once, and a parameter is in one of
    them only; [adjust_learning_rate] writes the schedule's rate times the
    weights multiplier at index 0 and times the biases multiplier at index
    1 and leaves the members of the groups alone; and the members of the
    groups are the same in the world the run ends in. *)
Theorem parameter_groups_fixed {Img Sched : Type}
    (forward : gmap nat Param → Img → logits) (criterion : logits → labels → R)
    (gradient : gmap nat Param → Img → labels → gmap nat tensor)
    (CosineAnnealingLR : LARS → Z → Sched * LARS)
    (scheduler_step : Sched → LARS → Sched * LARS)
    (model_parameters : list (nat * Param)) (len_train_loader : Z → Z)
    (train_loader test_loader : Z → Z → list (Img * labels))
    (gpu : Z) (args : Args) :
  warm args = true →
  NoDup model_parameters.*1 →
  let weights := (filter (λ x, ¬ is_bias x) model_parameters).*1 in
  let biases := (filter is_bias model_parameters).*1 in
  let args' := with_rank args (rank args + gpu) in
  partition_params model_parameters [] [] = (weights, biases) ∧
  g_params <$> param_groups (w_optimizer (initial_world CosineAnnealingLR model_parameters args'))
  = [weights; biases] ∧
  weights ++ biases ≡ₚ model_parameters.*1 ∧
  (∀ id p, (id, p) ∈ model_parameters →
     ((p_ndim p > 1)%nat → id ∈ weights) ∧ (p_ndim p = 1%nat → id ∈ biases)) ∧
  (∀ id, id ∈ weights → id ∉ biases) ∧
  (∀ opt opt' len_loader step,
     g_params <$> param_groups opt = [weights; biases] →
     adjust_learning_rate args' opt len_loader step = Ok opt' →
     ∃ lr, schedule_lr args' len_loader step = Ok lr ∧
           g_lr <$> param_groups opt'
           = [lr * learning_rate_weights args; lr * learning_rate_biases args] ∧
           g_params <$> param_groups opt' = [weights; biases]) ∧
  g_params <$> param_groups (w_optimizer
    (main_worker forward criterion gradient CosineAnnealingLR scheduler_step
                 model_parameters len_train_loader train_loader test_loader gpu args).2)
  = [weights; biases].
Proof.
  intros Hwarm Hnd weights biases args'.
  assert (warm args' = true) as Hwarm' by done.
  assert (weights ++ biases ≡ₚ model_parameters.*1) as Hperm.
  { subst weights biases. rewrite <- fmap_app. apply fmap_Permutation.
    apply filter_split_perm. }
  split; [| split; [| split; [| split; [| split; [| split]]]]].
  - by rewrite partition_params_filter.
  - apply (initial_world_groups CosineAnnealingLR model_parameters args' Hwarm').
  - done.
  - intros id p Hin. split; intros Hrank.
    + apply (elem_of_filter_fst _ _ id p Hin). unfold is_bias. simpl. lia.
    + by apply (elem_of_filter_fst _ _ id p Hin).
  - intros id Hw Hb. rewrite <- Hperm in Hnd. apply NoDup_app in Hnd as (_ & Hdisj & _).
    by apply (Hdisj id).
  - intros opt opt' len_loader step Hgp Hadj.
    pose proof (adjust_learning_rate_group_params _ _ _ _ _ Hadj) as Hsame.
    unfold adjust_learning_rate in Hadj.
    destruct (schedule_lr args' len_loader step) as [lr |]; [| done].
    exists lr. split; [done |]. split; [| congruence].
    destruct (param_groups opt) as [| g0 [| g1 [| g2 rest]]]; try done.
    simpl in Hadj. inversion Hadj; subst. done.
  - apply (preserves_run forward criterion gradient scheduler_step len_train_loader
             train_loader test_loader [weights; biases] args' Hwarm').
    apply (initial_world_groups CosineAnnealingLR model_parameters args' Hwarm').
Qed.

Lemma parameter_groups_fixed_witness :
  partition_params weight_and_bias [] []
  = ((filter (λ x, ¬ is_bias x) weight_and_bias).*1, (filter is_bias weight_and_bias).*1) ∧
  g_params <$> param_groups (w_optimizer
    (initial_world Toy.CosineAnnealingLR weight_and_bias (with_rank warm_args (0 + 0))))
  = [(filter (λ x, ¬ is_bias x) weight_and_bias).*1; (filter is_bias weight_and_bias).*1].
Proof.
  pose proof (parameter_groups_fixed Toy.forward Toy.criterion Toy.gradient
                Toy.CosineAnnealingLR Toy.scheduler_step weight_and_bias
                Toy.len_loader Toy.loader Toy.loader 0 warm_args) as H.
  destruct H as (H1 & H2 & _).
  - reflexivity.
  - apply (bool_decide_unpack _). vm_compute. exact I.
  - split; [exact H1 | exact H2].
Defined.

(** *** The recorded training loss *)

(** One epoch of the smallest setting, on the coordinator: it returns, and
    appends one entry to each list of the log. *)
Lemma toy_run_epoch (a : Args) (per_device_batch_size epoch : Z) (w : @World unit) :
  warm a = false → rank a = 0%Z → (0 <= epoch)%Z → is_Some (w_scheduler w) →
  ∃ w',
    run_epoch Toy.forward Toy.criterion Toy.gradient Toy.scheduler_step
              Toy.len_loader Toy.loader Toy.loader a per_device_batch_size tt epoch w
    = (Ok tt, w') ∧
    is_Some (w_scheduler w') ∧ w_saved w' = w_saved w ∧
    w_log w' = mkLog (train_loss (w_log w) ++ [(0 + 2) / IZR (epoch + 1)])
                     (train_acc (w_log w) ++ [100 * 1 / 1])
                     (test_loss (w_log w) ++ [(0 + 2) / 1])
                     (test_acc (w_log w) ++ [100 * 1 / 1]).
Proof.
  intros Hwarm Hrank He Hsched. unfold run_epoch, train_loop, test_loop.
  rewrite Hrank. change (0 =? 0)%Z with true. cbv iota.
  change (Toy.loader per_device_batch_size epoch) with [(tt, [0%nat])].
  change (Toy.len_loader per_device_batch_size) with 1%Z.
  cbn [enumerate for_each].
  destruct (train_batch_returns Toy.forward Toy.criterion Toy.gradient Toy.scheduler_step
              a 1 acc0 (epoch * 1) tt [0%nat] w) as (acc1 & w1 & H1).
  { by rewrite Hwarm. }
  pose proof (train_batch_ok _ _ _ _ _ _ _ _ _ _ _ _ _ H1)
    as (opt1 & sched1 & Hs & Hs1 & _ & Hlog & Hsaved & Hacc).
  rewrite Hwarm in Hs. destruct Hs as (s & s1 & _ & _ & ->).
  rewrite Hrank in Hacc. change (0 =? 0)%Z with true in Hacc. cbv iota zeta in Hacc.
  erewrite bind_ok; [| erewrite bind_ok; [| exact H1]; reflexivity].
  erewrite bind_ok; cycle 1.
  { apply record_train_ok.
    - subst acc1. cbn [accumulate with_batch_count acc0 a_loss a_batch_count].
      apply py_truediv_ok. lia.
    - subst acc1. cbn [accumulate with_batch_count acc0 a_correct a_total].
      change (0 + count_correct (Toy.forward (w_heap w) ()) [0%nat])%Z with 1%Z.
      change (0 + Z.of_nat (length [0%nat]))%Z with 1%Z.
      apply py_truediv_ok. lia. }
  erewrite bind_ok; cycle 1.
  { erewrite bind_ok; [| apply eval_batch_run]. reflexivity. }
  erewrite record_test_ok; cycle 1.
  { cbn [accumulate with_batch_count acc0 a_loss a_batch_count]. apply py_truediv_ok. lia. }
  { cbn [accumulate with_batch_count acc0 a_correct a_total].
    change (0 + count_correct (Toy.forward _ ()) [0%nat])%Z with 1%Z.
    change (0 + Z.of_nat (length [0%nat]))%Z with 1%Z.
    apply py_truediv_ok. lia. }
  eexists. split; [reflexivity |].
  cbn [with_log add_events w_scheduler w_saved w_log train_loss train_acc test_loss test_acc].
  rewrite Hs1, Hsaved, Hlog. split; [by eexists |]. split; [done |].
  unfold Toy.criterion. replace (epoch * 1 + 1)%Z with (epoch + 1)%Z by lia. done.
Qed.

(** C8: the code at a failing input.  Two epochs of the smallest setting,
    batch size 32 on 2 workers: every batch has loss 2, so the mean
    training loss of each epoch is 2, as is the mean evaluation loss.  The
    run returns with two entries per list; the evaluation losses are 2 and
    2, the training losses 2 and 1: the loss sum of the second epoch, one
    batch, is divided by 2. *)
Theorem second_epoch_train_loss_halved :
  (∀ out label, Toy.criterion out label = 2) ∧
  Z.of_nat (length (Toy.loader 16 1)) = 1%Z ∧
  ∃ w,
    Toy.main_worker 0 (Toy.args 32 2 2) = (Ok tt, w) ∧
    train_loss (w_log w) = [2; 1] ∧
    train_acc (w_log w) = [100; 100] ∧
    test_loss (w_log w) = [2; 2] ∧
    test_acc (w_log w) = [100; 100] ∧
    w_saved w = Some (w_log w).
Proof.
  split; [done |]. split; [done |].
  unfold main_worker, run.
  set (a := with_rank (Toy.args 32 2 2) (rank (Toy.args 32 2 2) + 0)).
  set (w0 := initial_world Toy.CosineAnnealingLR Toy.model_parameters a).
  destruct (initial_world_fresh Toy.CosineAnnealingLR Toy.model_parameters a)
    as (_ & Hlog0 & _). fold w0 in Hlog0.
  destruct (toy_run_epoch a (bs a / world_size a) 0 w0) as (w1 & H1 & Hs1 & _ & Hlog1);
    [done | done | lia | by apply initial_world_scheduler |].
  destruct (toy_run_epoch a (bs a / world_size a) 1 w1) as (w2 & H2 & _ & _ & Hlog2);
    [done | done | lia | done |].
  erewrite bind_ok; [| reflexivity].
  erewrite bind_ok; [| reflexivity].
  erewrite bind_ok; [| reflexivity].
  change (range (epochs a)) with [0%Z; 1%Z]. cbn [for_each].
  erewrite bind_ok; cycle 1.
  { erewrite bind_ok; [| exact H1]. erewrite bind_ok; [| exact H2]. reflexivity. }
  change (rank a =? 0)%Z with true. cbv iota.
  eexists. split; [reflexivity |].
  cbn [w_log w_saved fst snd]. rewrite Hlog2, Hlog1, Hlog0.
  cbn [train_loss train_acc test_loss test_acc app].
  change (0 + 1)%Z with 1%Z. change (1 + 1)%Z with 2%Z.
  repeat split; repeat f_equal; lra.
Qed.

(** * Further properties of the schedule *)

Lemma IZR_ratio_bounds (a m : Z) :
  (0 <= a <= m)%Z → (0 < m)%Z → 0 <= IZR a / IZR m <= 1.
Proof.
  intros [Ha1 Ha2] Hm. apply IZR_le in Ha1, Ha2. apply IZR_lt in Hm.
  pose proof (Rinv_0_lt_compat _ Hm) as Hinv.
  assert (IZR m * / IZR m = 1) as Hone by (apply Rinv_r; lra).
  unfold Rdiv. split; nra.
Qed.

Lemma IZR_ratio_mono (a b m : Z) :
  (a <= b)%Z → (0 < m)%Z → IZR a / IZR m <= IZR b / IZR m.
Proof.
  intros Hab Hm. apply IZR_le in Hab. apply IZR_lt in Hm.
  pose proof (Rinv_0_lt_compat _ Hm) as Hinv. unfold Rdiv. nra.
Qed.

(** X1.  With a loader that is not empty, the rate of step 0 is 0, and
    through the warmup the rate grows by [base_lr / warmup_steps] per
    step. *)
Theorem schedule_warmup_ramp (args : Args) (len_loader step : Z) :
  (0 < len_loader)%Z → (0 <= step)%Z → (step + 1 < 10 * len_loader)%Z →
  schedule_lr args len_loader 0 = Ok 0 ∧
  ∃ a b,
    schedule_lr args len_loader step = Ok a ∧
    schedule_lr args len_loader (step + 1) = Ok b ∧
    b - a = IZR (bs args) / 256 / IZR (10 * len_loader).
Proof.
  intros HL Hs Hw.
  assert (IZR (10 * len_loader) ≠ 0) as Hne by (apply not_0_IZR; lia).
  split.
  - rewrite schedule_lr_warmup by lia. f_equal. unfold Rdiv. ring.
  - eexists _, _. split; [apply schedule_lr_warmup; lia |].
    split; [apply schedule_lr_warmup; lia |].
    rewrite plus_IZR. field. done.
Qed.

Lemma schedule_warmup_ramp_witness :
  schedule_lr args_10_epochs 1 0 = Ok 0 ∧
  ∃ a b,
    schedule_lr args_10_epochs 1 3 = Ok a ∧
    schedule_lr args_10_epochs 1 (3 + 1) = Ok b ∧
    b - a = IZR (bs args_10_epochs) / 256 / IZR (10 * 1).
Proof. apply (schedule_warmup_ramp args_10_epochs 1 3); lia. Defined.

(** X2.  When there are steps after the warmup, the cosine branch starts at
    the base rate, the value the ramp reaches at [warmup_steps], and would
    reach [base_lr * 0.001] at [total_steps]. *)
Theorem schedule_cosine_ends (args : Args) (len_loader : Z) :
  (0 < epochs args * len_loader - 10 * len_loader)%Z →
  schedule_lr args len_loader (10 * len_loader) = Ok (IZR (bs args) / 256) ∧
  schedule_lr args len_loader (epochs args * len_loader)
  = Ok (IZR (bs args) / 256 * 0.001).
Proof.
  intros Hm. split.
  - rewrite schedule_lr_cosine by lia. cbv zeta. f_equal.
    rewrite Z.sub_diag.
    replace (PI * 0 / IZR (epochs args * len_loader - 10 * len_loader)) with 0
      by (unfold Rdiv; ring).
    rewrite cos_0. lra.
  - rewrite schedule_lr_cosine by lia. cbv zeta. f_equal.
    replace (PI * IZR (epochs args * len_loader - 10 * len_loader)
             / IZR (epochs args * len_loader - 10 * len_loader)) with PI
      by (field; apply not_0_IZR; lia).
    rewrite cos_PI. lra.
Qed.

Lemma schedule_cosine_ends_witness :
  schedule_lr args_20_epochs 1 (10 * 1) = Ok (IZR 256 / 256) ∧
  schedule_lr args_20_epochs 1 (20 * 1) = Ok (IZR 256 / 256 * 0.001).
Proof. apply (schedule_cosine_ends args_20_epochs 1). simpl. lia. Defined.

(** The rate of the cosine branch, as a function of the cosine. *)
Lemma cosine_rate_mono (base c1 c2 : R) :
  0 <= base → c2 <= c1 →
  base * (0.5 * (1 + c2)) + base * 0.001 * (1 - 0.5 * (1 + c2))
  <= base * (0.5 * (1 + c1)) + base * 0.001 * (1 - 0.5 * (1 + c1)).
Proof. intros Hb Hc. nra. Qed.

(** X3.  With a batch size that is not negative, the rate does not grow
    from one step of the cosine branch to a later one, up to
    [total_steps]. *)
Theorem schedule_cosine_decreasing (args : Args) (len_loader s1 s2 : Z) :
  (0 <= bs args)%Z →
  (10 * len_loader <= s1)%Z → (s1 <= s2)%Z → (s2 <= epochs args * len_loader)%Z →
  (0 < epochs args * len_loader - 10 * len_loader)%Z →
  ∃ a b,
    schedule_lr args len_loader s1 = Ok a ∧
    schedule_lr args len_loader s2 = Ok b ∧
    b <= a.
Proof.
  intros Hbs H1 H12 H2 Hm.
  eexists _, _. split; [apply schedule_lr_cosine; lia |].
  split; [apply schedule_lr_cosine; lia |]. cbv zeta.
  set (m := (epochs args * len_loader - 10 * len_loader)%Z) in *.
  pose proof (IZR_ratio_bounds (s1 - 10 * len_loader) m ltac:(lia) Hm) as [Ha1 Ha2].
  pose proof (IZR_ratio_bounds (s2 - 10 * len_loader) m ltac:(lia) Hm) as [Hb1 Hb2].
  pose proof (IZR_ratio_mono (s1 - 10 * len_loader) (s2 - 10 * len_loader) m
                ltac:(lia) Hm) as Hmono.
  pose proof PI_RGT_0 as Hpi.
  apply cosine_rate_mono.
  - apply IZR_le in Hbs. lra.
  - apply cos_decr_1; unfold Rdiv in *; rewrite ?Rmult_assoc; nra.
Qed.

Lemma schedule_cosine_decreasing_witness :
  ∃ a b,
    schedule_lr args_20_epochs 1 12 = Ok a ∧
    schedule_lr args_20_epochs 1 15 = Ok b ∧
    b <= a.
Proof.
  apply (schedule_cosine_decreasing args_20_epochs 1 12 15); simpl; lia.
Defined.

(** X4.  With a batch size that is not negative, at every step the worker
    loop produces the schedule returns a rate between 0 and the base
    rate. *)
Theorem schedule_rate_bounds {A} (args : Args) (batches : list A)
    (epoch step : Z) (x : A) :
  let len_loader := Z.of_nat (length batches) in
  (0 <= bs args)%Z →
  epoch ∈ range (epochs args) →
  (step, x) ∈ enumerate batches (epoch * len_loader) →
  ∃ lr, schedule_lr args len_loader step = Ok lr ∧ 0 <= lr <= IZR (bs args) / 256.
Proof.
  intros len_loader Hbs He Hs.
  pose proof (loop_step_bounds _ _ _ _ _ He Hs) as Hb. fold len_loader in Hb.
  apply IZR_le in Hbs.
  destruct (Z.lt_ge_cases step (10 * len_loader)) as [Hw | Hw].
  - eexists. split; [apply schedule_lr_warmup; lia |].
    pose proof (IZR_ratio_bounds step (10 * len_loader) ltac:(lia) ltac:(lia)) as [H1 H2].
    unfold Rdiv in *. rewrite Rmult_assoc. split; nra.
  - eexists. split; [apply schedule_lr_cosine; lia |]. cbv zeta.
    pose proof (COS_bound (PI * IZR (step - 10 * len_loader)
                           / IZR (epochs args * len_loader - 10 * len_loader))) as [H1 H2].
    split; nra.
Qed.

Lemma schedule_rate_bounds_witness :
  ∃ lr, schedule_lr args_20_epochs 1 13 = Ok lr ∧ 0 <= lr <= IZR 256 / 256.
Proof.
  apply (schedule_rate_bounds args_20_epochs [tt] 13 13 tt).
  - simpl. lia.
  - apply elem_of_range. simpl. lia.
  - simpl. apply list_elem_of_here.
Defined.

(** * Further properties of [adjust_learning_rate] *)

Lemma schedule_lr_outcome (args : Args) (len_loader step : Z) :
  (schedule_divides_by_zero args len_loader step ∧
   schedule_lr args len_loader step = Err ZeroDivisionError) ∨
  (¬ schedule_divides_by_zero args len_loader step ∧
   ∃ lr, schedule_lr args len_loader step = Ok lr).
Proof.
  unfold schedule_divides_by_zero.
  destruct (Z.lt_ge_cases step (10 * len_loader)) as [Hw | Hw].
  - destruct (decide (len_loader = 0%Z)) as [-> | HL].
    + left. split; [lia |]. unfold schedule_lr.
      destruct (Z.ltb_spec step (10 * 0)); [done | lia].
    + right. split; [lia |]. unfold schedule_lr.
      destruct (Z.ltb_spec step (10 * len_loader)); [| lia].
      eexists. apply py_truediv_ok. lia.
  - destruct (decide (epochs args * len_loader - 10 * len_loader = 0)%Z) as [Hm | Hm].
    + left. split; [lia |]. by apply schedule_lr_unguarded.
    + right. split; [lia |]. eexists. by apply schedule_lr_cosine.
Qed.

(** X5.  The outcomes of [adjust_learning_rate] for a batch size, a number
    of epochs, a loader length and a step that Python converts to floats:
    it raises [ZeroDivisionError] exactly at the steps where the schedule
    divides by zero (a step below zero with an empty loader, or a step of
    the cosine branch with [total_steps = warmup_steps]); otherwise it
    raises [IndexError] exactly when the optimizer has fewer than two
    groups; and otherwise it returns. *)
Theorem adjust_learning_rate_outcomes (args : Args) (opt : LARS) (len_loader step : Z) :
  float_sized (bs args) → float_sized (epochs args) →
  float_sized len_loader → float_sized step →
  (adjust_learning_rate args opt len_loader step = Err ZeroDivisionError
   ↔ schedule_divides_by_zero args len_loader step) ∧
  (adjust_learning_rate args opt len_loader step = Err IndexError
   ↔ ¬ schedule_divides_by_zero args len_loader step
     ∧ (length (param_groups opt) < 2)%nat) ∧
  ((∃ opt', adjust_learning_rate args opt len_loader step = Ok opt')
   ↔ ¬ schedule_divides_by_zero args len_loader step
     ∧ (2 <= length (param_groups opt))%nat).
Proof.
  intros _ _ _ _. unfold adjust_learning_rate.
  destruct (schedule_lr_outcome args len_loader step) as [[Hz ->] | [Hz [lr ->]]];
    simpl.
  - split; [tauto |]. split; [split; [done | tauto] |].
    split; [by intros [? ?] | tauto].
  - unfold assign_lr.
    destruct (param_groups opt) as [| g0 [| g1 rest]]; simpl.
    + split; [split; [done | tauto] |]. split; [split; [intros _; split; [done | lia] | done] |].
      split; [by intros [? ?] | lia].
    + split; [split; [done | tauto] |]. split; [split; [intros _; split; [done | lia] | done] |].
      split; [by intros [? ?] | lia].
    + split; [split; [done | tauto] |]. split; [split; [done | lia] |].
      split; [intros _; split; [done | lia] | by eexists].
Qed.

(** Ten epochs of a loader of one batch: the call returns at step 3, and
    raises [ZeroDivisionError] at step 10, where the cosine branch divides
    by [total_steps - warmup_steps = 0]. *)
Lemma adjust_learning_rate_outcomes_witness :
  (∃ opt', adjust_learning_rate args_10_epochs two_groups 1 3 = Ok opt') ∧
  adjust_learning_rate args_10_epochs two_groups 1 10 = Err ZeroDivisionError.
Proof.
  split.
  - apply (adjust_learning_rate_outcomes args_10_epochs two_groups 1 3);
      [vm_compute; reflexivity .. |].
    split; [| simpl; lia]. unfold schedule_divides_by_zero. simpl. lia.
  - apply (adjust_learning_rate_outcomes args_10_epochs two_groups 1 10);
      [vm_compute; reflexivity .. |].
    unfold schedule_divides_by_zero. simpl. lia.
Defined.



(** * Further properties of [LARS.step] *)

Lemma step_param_meta (g : Group) (id j : nat) (s s' : gmap nat tensor * gmap nat Param) :
  step_param g id s = Ok s' →
  param_meta <$> s'.2 !! j = param_meta <$> s.2 !! j ∧
  (is_Some (s.1 !! j) → is_Some (s'.1 !! j)).
Proof.
  unfold step_param. intros Hs.
  destruct (s.2 !! id) as [p |] eqn:Hp; [| by inversion Hs].
  destruct (p_grad p) as [dp |] eqn:Hg; [| by inversion Hs].
  destruct (lars_adapt g p (weight_decay_grad g p dp)) as [dp' |]; [| done].
  inversion Hs; subst. destruct s as [st h]. simpl in *.
  destruct (decide (id = j)) as [-> | Hne].
  - rewrite !lookup_insert_eq, Hp. split; [done | by eauto].
  - by rewrite !lookup_insert_ne.
Qed.

Lemma step_params_meta (g : Group) (ids : list nat) (j : nat)
    (s s' : gmap nat tensor * gmap nat Param) :
  step_params g ids s = Ok s' →
  param_meta <$> s'.2 !! j = param_meta <$> s.2 !! j ∧
  (is_Some (s.1 !! j) → is_Some (s'.1 !! j)).
Proof.
  revert s. induction ids as [| id ids IH]; intros s Hs; simpl in Hs.
  - by inversion Hs.
  - destruct (step_param g id s) as [s1 |] eqn:H1; [| done]. simpl in Hs.
    destruct (step_param_meta _ _ j _ _ H1) as [Ha Hb].
    destruct (IH _ Hs) as [Hc Hd]. split; [congruence | auto].
Qed.

Lemma step_groups_meta (gs : list Group) (j : nat)
    (s s' : gmap nat tensor * gmap nat Param) :
  step_groups gs s = Ok s' →
  param_meta <$> s'.2 !! j = param_meta <$> s.2 !! j ∧
  (is_Some (s.1 !! j) → is_Some (s'.1 !! j)).
Proof.
  revert s. induction gs as [| g gs IH]; intros s Hs; simpl in Hs.
  - by inversion Hs.
  - destruct (step_params g (g_params g) s) as [s1 |] eqn:H1; [| done]. simpl in Hs.
    destruct (step_params_meta _ _ j _ _ H1) as [Ha Hb].
    destruct (IH _ Hs) as [Hc Hd]. split; [congruence | auto].
Qed.

(** X7.  [step()] returns and writes no gradient and no rank: every
    parameter has the gradient and the rank it had, the heap holds the
    same parameters, the groups are the same, and every momentum buffer
    that existed still exists. *)
Theorem LARS_step_keeps_gradients (opt : LARS) (h : gmap nat Param) :
  ∃ opt' h',
    LARS_step opt h = Ok (opt', h') ∧
    param_groups opt' = param_groups opt ∧
    dom h' = dom h ∧
    dom (state opt) ⊆ dom (state opt') ∧
    ∀ id, p_grad <$> h' !! id = p_grad <$> h !! id ∧
          p_ndim <$> h' !! id = p_ndim <$> h !! id.
Proof.
  unfold LARS_step.
  destruct (step_groups_total (param_groups opt) (state opt, h)) as [s' Hs].
  rewrite Hs. simpl. eexists _, _. split; [done |]. split; [done |].
  assert (∀ id, param_meta <$> s'.2 !! id = param_meta <$> h !! id) as Hmeta
    by (intros id; apply (step_groups_meta _ id _ _ Hs)).
  split; [| split].
  - apply set_eq. intros id. rewrite !elem_of_dom.
    specialize (Hmeta id). destruct (s'.2 !! id), (h !! id); simpl in Hmeta;
      try done; split; intros [? ?]; eauto; done.
  - intros id. rewrite !elem_of_dom. apply (step_groups_meta _ id _ _ Hs).
  - intros id. specialize (Hmeta id).
    destruct (s'.2 !! id), (h !! id); simpl in *; try done.
    inversion Hmeta. by split; f_equal.
Qed.

(** A parameter the heap does not hold is passed over. *)
Lemma step_param_missing (g : Group) (id : nat) (s : gmap nat tensor * gmap nat Param) :
  s.2 !! id = None → step_param g id s = Ok s.
Proof. intros Hp. unfold step_param. by rewrite Hp. Qed.

Lemma step_param_idle (g : Group) (j id : nat) (s s' : gmap nat tensor * gmap nat Param) :
  idle s.2 id → step_param g j s = Ok s' →
  s'.1 !! id = s.1 !! id ∧ s'.2 !! id = s.2 !! id.
Proof.
  unfold idle. intros Hidle Hs. destruct (s.2 !! id) as [p |] eqn:Hp; rewrite <- Hp.
  - by eapply step_param_absent.
  - destruct (decide (id = j)) as [-> | Hne].
    + rewrite (step_param_missing g j s Hp) in Hs. by inversion Hs.
    + destruct (step_param_frame g j id s s' Hs Hne) as [Ha Hb]. by rewrite Ha, Hb.
Qed.

Lemma step_params_idle (g : Group) (ids : list nat) (id : nat)
    (s s' : gmap nat tensor * gmap nat Param) :
  idle s.2 id ∨ id ∉ ids → step_params g ids s = Ok s' →
  s'.1 !! id = s.1 !! id ∧ s'.2 !! id = s.2 !! id.
Proof.
  intros [Hidle | Hout] Hs; [| by eapply step_params_frame].
  revert s Hidle Hs. induction ids as [| j ids IH]; intros s Hidle Hs; simpl in Hs.
  - by inversion Hs.
  - destruct (step_param g j s) as [s1 |] eqn:H1; [| done]. simpl in Hs.
    destruct (step_param_idle _ _ _ _ _ Hidle H1) as [Ha Hb].
    destruct (IH s1) as [Hc Hd]; [unfold idle in *; by rewrite Hb | done |].
    split; congruence.
Qed.

Lemma step_groups_idle (gs : list Group) (id : nat)
    (s s' : gmap nat tensor * gmap nat Param) :
  idle s.2 id ∨ id ∉ concat (g_params <$> gs) → step_groups gs s = Ok s' →
  s'.1 !! id = s.1 !! id ∧ s'.2 !! id = s.2 !! id.
Proof.
  revert s. induction gs as [| g gs IH]; intros s Hid Hs; simpl in Hs.
  - by inversion Hs.
  - destruct (step_params g (g_params g) s) as [s1 |] eqn:H1; [| done]. simpl in Hs.
    assert (s1.1 !! id = s.1 !! id ∧ s1.2 !! id = s.2 !! id) as [Ha Hb].
    { eapply step_params_idle; [| done]. destruct Hid as [? | Hout]; [by left |].
      right. simpl in Hout. apply not_elem_of_app in Hout. tauto. }
    destruct (IH s1) as [Hc Hd]; [| done | split; congruence].
    destruct Hid as [Hidle | Hout].
    + left. unfold idle in *. by rewrite Hb.
    + right. simpl in Hout. apply not_elem_of_app in Hout. tauto.
Qed.

(** X8.  [step()] touches only the parameters that are in a group and have
    a gradient: a parameter that is in no group, or has no gradient, is as
    before, and so is its momentum buffer (none is created for it). *)
Theorem LARS_step_touches_only_trained (opt : LARS) (h : gmap nat Param) :
  ∃ opt' h',
    LARS_step opt h = Ok (opt', h') ∧
    ∀ id, idle h id ∨ id ∉ concat (g_params <$> param_groups opt) →
          h' !! id = h !! id ∧ state opt' !! id = state opt !! id.
Proof.
  unfold LARS_step.
  destruct (step_groups_total (param_groups opt) (state opt, h)) as [s' Hs].
  rewrite Hs. simpl. eexists _, _. split; [done |]. intros id Hid.
  destruct (step_groups_idle (param_groups opt) id (state opt, h) s' Hid Hs). done.
Qed.

Lemma LARS_step_touches_only_trained_witness :
  ∃ opt' h',
    LARS_step moving_optimizer frozen_bias = Ok (opt', h') ∧
    h' !! 1%nat = frozen_bias !! 1%nat ∧
    state opt' !! 1%nat = state moving_optimizer !! 1%nat ∧
    h' !! 7%nat = frozen_bias !! 7%nat ∧
    state opt' !! 7%nat = state moving_optimizer !! 7%nat.
Proof.
  destruct (LARS_step_touches_only_trained moving_optimizer frozen_bias)
    as (opt' & h' & Hs & H).
  exists opt', h'. split; [exact Hs |].
  destruct (H 1%nat) as [H1 H2].
  { left. unfold idle, frozen_bias. by rewrite lookup_singleton_eq. }
  destruct (H 7%nat) as [H3 H4].
  { right. simpl. intros Hin. apply list_elem_of_singleton in Hin. lia. }
  done.
Defined.

(** ** Shapes, and the first step of a parameter *)

Lemma weight_decay_grad_length (g : Group) (p : Param) (gr : tensor) :
  length gr = length (p_data p) → length (weight_decay_grad g p gr) = length (p_data p).
Proof.
  intros Hl. unfold weight_decay_grad, tadd_alpha. destruct (_ || _); [| done].
  rewrite length_zip_with. lia.
Qed.

Lemma lars_adapt_length (g : Group) (p : Param) (dp dp' : tensor) :
  lars_adapt g p dp = Ok dp' → length dp' = length dp.
Proof.
  unfold lars_adapt. destruct (_ || _); [| by intros [= ->]].
  destruct (trust_ratio _ _ _); [| done]. intros [= <-]. unfold tmul.
  apply length_map.
Qed.

Lemma tadd_zeros_l (dp : tensor) : tadd (repeat 0 (length dp)) dp = dp.
Proof.
  unfold tadd. induction dp as [| x dp IH]; simpl; [done |].
  rewrite IH. f_equal. lra.
Qed.

(** X10.  Shapes are kept: for a parameter of a group whose gradient has as
    many entries as the parameter, and whose momentum buffer, if it has
    one, does too, the parameter and the buffer have that number of
    entries after [step()]. *)
Theorem LARS_step_shapes (opt : LARS) (h : gmap nat Param) (k : nat) (g : Group)
    (id : nat) (p : Param) (gr : tensor) :
  NoDup (concat (g_params <$> param_groups opt)) →
  param_groups opt !! k = Some g → id ∈ g_params g →
  h !! id = Some p → p_grad p = Some gr →
  length gr = length (p_data p) →
  (∀ mu, state opt !! id = Some mu → length mu = length (p_data p)) →
  ∃ opt' h' mu' p',
    LARS_step opt h = Ok (opt', h') ∧
    state opt' !! id = Some mu' ∧ h' !! id = Some p' ∧
    length mu' = length (p_data p) ∧ length (p_data p') = length (p_data p).
Proof.
  intros Hnd Hk Hin Hp Hg Hlen Hbuf.
  destruct (step_groups_at (param_groups opt) k g id p gr (state opt, h)
              Hnd Hk Hin Hp Hg) as (dp & s' & Hdp & Hs & Hmu & Hpar).
  pose proof (lars_adapt_length _ _ _ _ Hdp) as Hl.
  rewrite weight_decay_grad_length in Hl by done.
  assert (length (new_mu g p gr (state opt !! id) dp) = length (p_data p)) as Hnew.
  { unfold new_mu, tadd, tmul. rewrite length_zip_with, length_map.
    destruct (state opt !! id) as [mu |] eqn:Hst; simpl.
    - rewrite (Hbuf mu eq_refl). lia.
    - unfold zeros_like. rewrite repeat_length. lia. }
  unfold LARS_step. rewrite Hs. simpl. eexists _, _, _, _.
  split; [done |]. split; [exact Hmu |]. split; [exact Hpar |].
  split; [exact Hnew |]. simpl. unfold tadd_alpha. rewrite length_zip_with.
  simpl in Hnew. lia.
Qed.

Lemma LARS_step_shapes_witness :
  ∃ opt' h' mu' p',
    LARS_step weight_optimizer one_weight = Ok (opt', h') ∧
    state opt' !! 0%nat = Some mu' ∧ h' !! 0%nat = Some p' ∧
    length mu' = length [3; 4] ∧ length (p_data p') = length [3; 4].
Proof.
  apply (LARS_step_shapes weight_optimizer one_weight 0 weight_group 0
           (mkParam [3; 4] (Some [1; 1]) 2) [1; 1]).
  - simpl. apply NoDup_singleton.
  - reflexivity.
  - simpl. apply list_elem_of_here.
  - apply lookup_singleton_eq.
  - reflexivity.
  - reflexivity.
  - intros mu Hmu. simpl in Hmu. by rewrite lookup_empty in Hmu.
Defined.

(** X11.  The first step of a parameter, one that has no momentum buffer
    yet: the buffer created is the decayed and adapted gradient itself,
    and the parameter moves by [lr] times it. *)
Theorem LARS_first_step (opt : LARS) (h : gmap nat Param) (k : nat) (g : Group)
    (id : nat) (p : Param) (gr : tensor) :
  NoDup (concat (g_params <$> param_groups opt)) →
  param_groups opt !! k = Some g → id ∈ g_params g →
  h !! id = Some p → p_grad p = Some gr →
  length gr = length (p_data p) →
  state opt !! id = None →
  ∃ dp opt' h',
    lars_adapt g p (weight_decay_grad g p gr) = Ok dp ∧
    LARS_step opt h = Ok (opt', h') ∧
    state opt' !! id = Some dp ∧
    h' !! id = Some (mkParam (spec_descent (g_lr g) (p_data p) dp) (Some gr) (p_ndim p)).
Proof.
  intros Hnd Hk Hin Hp Hg Hlen Hnone.
  destruct (step_groups_at (param_groups opt) k g id p gr (state opt, h)
              Hnd Hk Hin Hp Hg) as (dp & s' & Hdp & Hs & Hmu & Hpar).
  pose proof (lars_adapt_length _ _ _ _ Hdp) as Hl.
  rewrite weight_decay_grad_length in Hl by done.
  assert (new_mu g p gr (state opt !! id) dp = dp) as Hnew.
  { unfold new_mu. rewrite Hnone. simpl. unfold zeros_like.
    by rewrite tmul_zeros, <- Hl, tadd_zeros_l. }
  simpl in Hmu, Hpar. rewrite Hnew in Hmu, Hpar.
  exists dp. unfold LARS_step. rewrite Hs. simpl. eexists _, _.
  split; [done |]. split; [done |]. split; [exact Hmu |].
  rewrite Hpar. unfold new_param, with_data. by rewrite tadd_alpha_spec, Hg.
Qed.

Lemma LARS_first_step_witness :
  ∃ dp opt' h',
    lars_adapt (bias_group 0) (mkParam [1] (Some [2]) 1)
               (weight_decay_grad (bias_group 0) (mkParam [1] (Some [2]) 1) [2]) = Ok dp ∧
    LARS_step bias_optimizer one_bias = Ok (opt', h') ∧
    state opt' !! 1%nat = Some dp ∧
    h' !! 1%nat = Some (mkParam (spec_descent 0.01 [1] dp) (Some [2]) 1).
Proof.
  apply (LARS_first_step bias_optimizer one_bias 0 (bias_group 0) 1
           (mkParam [1] (Some [2]) 1) [2]).
  - simpl. apply NoDup_singleton.
  - reflexivity.
  - simpl. apply list_elem_of_here.
  - apply lookup_singleton_eq.
  - reflexivity.
  - reflexivity.
  - reflexivity.
Defined.

(** X12.  A parameter of rank 1 in a group with both filters on, as
    [main_worker] sets them, is updated by plain momentum descent on its
    own gradient: the buffer becomes [momentum * mu + grad] and the
    parameter [p - lr * mu], whatever [weight_decay] and [eta] are. *)
Theorem LARS_step_bias_plain_momentum (opt : LARS) (h : gmap nat Param) (k : nat)
    (g : Group) (id : nat) (p : Param) (gr : tensor) :
  NoDup (concat (g_params <$> param_groups opt)) →
  param_groups opt !! k = Some g → id ∈ g_params g →
  h !! id = Some p → p_grad p = Some gr →
  g_weight_decay_filter g = true → g_lars_adaptation_filter g = true →
  p_ndim p = 1%nat →
  let mu0 := match state opt !! id with
             | Some mu => mu
             | None => repeat 0 (length (p_data p))
             end in
  let mu := spec_momentum (g_momentum g) mu0 gr in
  ∃ opt' h',
    LARS_step opt h = Ok (opt', h') ∧
    state opt' !! id = Some mu ∧
    h' !! id = Some (mkParam (spec_descent (g_lr g) (p_data p) mu) (Some gr) 1).
Proof.
  intros Hnd Hk Hin Hp Hg Hwd Hla Hrank mu0 mu.
  destruct (step_groups_at (param_groups opt) k g id p gr (state opt, h)
              Hnd Hk Hin Hp Hg) as (dp & s' & Hdp & Hs & Hmu & Hpar).
  unfold lars_adapt, weight_decay_grad, exclude_bias_and_norm in Hdp.
  rewrite Hwd, Hla, Hrank in Hdp. simpl in Hdp. inversion Hdp; subst dp.
  assert (new_mu g p gr (state opt !! id) gr = mu) as Hnew.
  { unfold new_mu. rewrite tadd_tmul_spec. subst mu mu0. unfold zeros_like.
    by destruct (state opt !! id). }
  simpl in Hmu, Hpar. rewrite Hnew in Hmu, Hpar.
  unfold LARS_step. rewrite Hs. simpl. eexists _, _.
  split; [done |]. split; [exact Hmu |].
  rewrite Hpar. unfold new_param, with_data. by rewrite tadd_alpha_spec, Hg, Hrank.
Qed.

Lemma LARS_step_bias_plain_momentum_witness :
  ∃ opt' h',
    LARS_step (mkLARS [bias_group 1000] {[1%nat := [1]]}) moving_bias = Ok (opt', h') ∧
    state opt' !! 1%nat = Some (spec_momentum 0.9 [1] [0]) ∧
    h' !! 1%nat
    = Some (mkParam (spec_descent 0.01 [1] (spec_momentum 0.9 [1] [0])) (Some [0]) 1).
Proof.
  pose proof (LARS_step_bias_plain_momentum (mkLARS [bias_group 1000] {[1%nat := [1]]})
                moving_bias 0 (bias_group 1000) 1 (mkParam [1] (Some [0]) 1) [0]) as H.
  simpl in H. rewrite lookup_singleton_eq in H. apply H.
  - apply NoDup_singleton.
  - reflexivity.
  - apply list_elem_of_here.
  - apply lookup_singleton_eq.
  - reflexivity.
  - reflexivity.
  - reflexivity.
  - reflexivity.
Defined.

(** * Further properties of the worker loop *)

Lemma count_correct_bounds (out : logits) (label : labels) :
  (0 <= count_correct out label <= Z.of_nat (length label))%Z.
Proof.
  unfold count_correct. split; [lia |]. apply inj_le.
  generalize (map argmax out). intros pred. revert label.
  induction pred as [| a pred IH]; intros [| b label]; simpl; try lia.
  specialize (IH label). destruct (a =? b)%nat; lia.
Qed.

Lemma accumulate_good_acc (acc : Acc) (n : Z) (loss : R) (out : logits) (label : labels) :
  good_acc acc → good_acc (accumulate (with_batch_count acc n) loss out label).
Proof.
  unfold good_acc. simpl. pose proof (count_correct_bounds out label). lia.
Qed.

Lemma py_truediv_percent (acc : Acc) (y : R) :
  good_acc acc → py_truediv (100 * IZR (a_correct acc)) (a_total acc) = Ok y → percent y.
Proof.
  unfold good_acc, py_truediv, percent. intros [H0 H1].
  destruct (Z.eqb_spec (a_total acc) 0) as [| Hne]; [done |]. intros [= <-].
  assert (0 < a_total acc)%Z as Hpos by lia.
  apply IZR_le in H0, H1. apply IZR_lt in Hpos.
  pose proof (Rinv_0_lt_compat _ Hpos) as Hinv.
  assert (IZR (a_total acc) * / IZR (a_total acc) = 1) as Hone by (apply Rinv_r; lra).
  unfold Rdiv. rewrite Rmult_assoc. split; nra.
Qed.

Lemma length_enumerate {A} (l : list A) (start : Z) :
  length (enumerate l start) = length l.
Proof. revert start. induction l as [| x l IH]; intros start; simpl; [done | by rewrite IH]. Qed.

(** After [zero_grad], a parameter of a group has no gradient and its data
    and rank are as before; the other parameters are as before. *)
Lemma zero_grad_params_lookup (ids : list nat) (h : gmap nat Param) (id : nat) :
  zero_grad_params ids h !! id
  = (if decide (id ∈ ids) then (λ p, with_grad p None) <$> h !! id else h !! id).
Proof.
  unfold zero_grad_params. revert h. induction ids as [| j ids IH]; intros h; cbn [foldl].
  - destruct (decide (id ∈ [])) as [Hin | _]; [by apply elem_of_nil in Hin | done].
  - rewrite IH. destruct (decide (j = id)) as [-> | Hne].
    + rewrite lookup_alter_eq.
      destruct (decide (id ∈ id :: ids)) as [_ | Hout];
        [| by destruct Hout; apply list_elem_of_here].
      destruct (decide (id ∈ ids)); [| done]. by destruct (h !! id).
    + rewrite lookup_alter_ne by done.
      destruct (decide (id ∈ ids)) as [Hin | Hout];
        destruct (decide (id ∈ j :: ids)) as [Hin' | Hout']; try done.
      * destruct Hout'. by apply list_elem_of_further.
      * apply elem_of_cons in Hin' as [? | ?]; congruence.
Qed.

Lemma zero_grad_lookup (opt : LARS) (h : gmap nat Param) (id : nat) :
  zero_grad opt h !! id
  = (if decide (id ∈ concat (g_params <$> param_groups opt))
     then (λ p, with_grad p None) <$> h !! id else h !! id).
Proof.
  unfold zero_grad. generalize (param_groups opt). intros gs. revert h.
  induction gs as [| g gs IH]; intros h; cbn [foldl fmap list_fmap concat].
  - destruct (decide (id ∈ [])) as [Hin | _]; [by apply elem_of_nil in Hin | done].
  - rewrite IH, zero_grad_params_lookup.
    destruct (decide (id ∈ g_params g)) as [Hin | Hout];
      destruct (decide (id ∈ concat (g_params <$> gs))) as [Hin' | Hout'];
      destruct (decide (id ∈ g_params g ++ concat (g_params <$> gs))) as [Hin2 | Hout2];
      try done.
    + by destruct (h !! id).
    + destruct Hout2. apply elem_of_app. by left.
    + destruct Hout2. apply elem_of_app. by left.
    + destruct Hout2. apply elem_of_app. by right.
    + apply elem_of_app in Hin2. tauto.
Qed.

Lemma accumulate_grads_lookup (gr : gmap nat tensor) (h : gmap nat Param) (id : nat) :
  accumulate_grads gr h !! id
  = (λ p, with_grad p (accumulate_grad (p_grad p) (gr !! id))) <$> h !! id.
Proof.
  unfold accumulate_grads. rewrite map_lookup_imap. by destruct (h !! id).
Qed.

Section WorkerLoopMore.

Context {Img Sched : Type}.
Variable forward : gmap nat Param -> Img -> logits.
Variable criterion : logits -> labels -> R.
Variable gradient : gmap nat Param -> Img -> labels -> gmap nat tensor.
Variable CosineAnnealingLR : LARS -> Z -> Sched * LARS.
Variable scheduler_step : Sched -> LARS -> Sched * LARS.
Variable model_parameters : list (nat * Param).
Variable len_train_loader : Z -> Z.
Variable train_loader : Z -> Z -> list (Img * labels).
Variable test_loader : Z -> Z -> list (Img * labels).

Abbreviation World := (@World Sched).
Abbreviation M := (@M Sched).
Abbreviation train_batch := (train_batch forward criterion gradient scheduler_step).
Abbreviation eval_batch := (eval_batch forward criterion).
Abbreviation train_loop :=
  (train_loop forward criterion gradient scheduler_step len_train_loader train_loader).
Abbreviation test_loop := (test_loop forward criterion test_loader).
Abbreviation record_train := (@record_train Sched).
Abbreviation record_test := (@record_test Sched).
Abbreviation run_epoch :=
  (run_epoch forward criterion gradient scheduler_step len_train_loader
             train_loader test_loader).
Abbreviation run :=
  (run forward criterion gradient scheduler_step len_train_loader
       train_loader test_loader).
Abbreviation initial_world := (initial_world CosineAnnealingLR model_parameters).
Abbreviation main_worker :=
  (main_worker forward criterion gradient CosineAnnealingLR scheduler_step
               model_parameters len_train_loader train_loader test_loader).
Abbreviation on_log := (@on_log Sched).
Abbreviation ready := (@ready Sched).
Abbreviation nonempty_batches := (@nonempty_batches Img).
Abbreviation scheduled := (scheduled scheduler_step).
Abbreviation eval_acc := (eval_acc forward criterion).
Abbreviation batch_losses := (batch_losses forward criterion).

(** ** Evaluation *)

Lemma add_events_nil (w : World) : add_events w [] = w.
Proof. destruct w. unfold add_events. simpl. by rewrite app_nil_r. Qed.

Lemma add_events_app (w : World) (e1 e2 : list Event) :
  add_events (add_events w e1) e2 = add_events w (e1 ++ e2).
Proof. unfold add_events. simpl. by rewrite app_assoc. Qed.

Lemma for_each_eval_batch (items : list (Z * (Img * labels))) (acc : Acc) (w : World) :
  for_each eval_batch acc items w
  = (Ok (foldl (eval_acc (w_heap w)) acc items),
     add_events w (items ≫= λ _, [EvForward; EvLoss])).
Proof.
  revert acc w. induction items as [| [step [img label]] items IH]; intros acc w.
  - simpl. by rewrite add_events_nil.
  - cbn [for_each]. erewrite bind_ok; [| apply eval_batch_run].
    rewrite IH. simpl. by rewrite add_events_app.
Qed.

Lemma eval_acc_loss (h : gmap nat Param) (batches : list (Img * labels))
    (start : Z) (acc : Acc) :
  a_loss (foldl (eval_acc h) acc (enumerate batches start))
  = sum_from (a_loss acc) (batch_losses h batches).
Proof.
  revert start acc. induction batches as [| b batches IH]; intros start acc; [done |].
  simpl. by rewrite IH.
Qed.

Lemma eval_acc_batch_count (h : gmap nat Param) (batches : list (Img * labels))
    (start : Z) (acc : Acc) :
  a_batch_count (foldl (eval_acc h) acc (enumerate batches start))
  = match batches with
    | [] => a_batch_count acc
    | _ :: _ => (start + Z.of_nat (length batches) - 1)%Z
    end.
Proof.
  revert start acc. induction batches as [| b batches IH]; intros start acc; [done |].
  simpl enumerate. simpl foldl. rewrite IH. destruct batches; simpl; lia.
Qed.

(** X13.  The evaluation loop always returns and is read-only: it leaves
    the parameters, the optimizer, the scheduler, the log and what is saved
    as they are, and its loss sum is the sum of the losses of the batches
    under the parameters the epoch's training left. *)
Theorem test_loop_read_only (per_device_batch_size epoch : Z) (w : World) :
  ∃ acc w',
    test_loop per_device_batch_size epoch w = (Ok acc, w') ∧
    w_heap w' = w_heap w ∧ w_optimizer w' = w_optimizer w ∧
    w_scheduler w' = w_scheduler w ∧ w_log w' = w_log w ∧ w_saved w' = w_saved w ∧
    a_loss acc
    = sum_from 0 (batch_losses (w_heap w) (test_loader per_device_batch_size epoch)).
Proof.
  unfold test_loop. rewrite for_each_eval_batch. eexists _, _. split; [done |].
  repeat (split; [done |]). by rewrite eval_acc_loss.
Qed.

(** X14.  On an evaluation loader that is not empty, the evaluation loss
    that is recorded is the mean of the losses of its batches: their sum
    divided by their number. *)
Theorem test_loss_is_epoch_mean (per_device_batch_size epoch : Z) (w : World) :
  test_loader per_device_batch_size epoch ≠ [] →
  ∃ acc w',
    test_loop per_device_batch_size epoch w = (Ok acc, w') ∧
    test_loss (w_log (record_test acc w').2)
    = test_loss (w_log w)
      ++ [sum_from 0 (batch_losses (w_heap w) (test_loader per_device_batch_size epoch))
          / IZR (Z.of_nat (length (test_loader per_device_batch_size epoch)))].
Proof.
  intros Hne. unfold test_loop. rewrite for_each_eval_batch.
  eexists _, _. split; [done |].
  unfold record_test. cbv [lift get set_log mbind mret M_bind M_ret].
  rewrite py_truediv_ok; rewrite eval_acc_batch_count.
  - rewrite eval_acc_loss.
    destruct (test_loader per_device_batch_size epoch) as [| b l] eqn:Hb; [done |].
    replace (0 + Z.of_nat (length (b :: l)) - 1 + 1)%Z
      with (Z.of_nat (length (b :: l))) by lia.
    by destruct (py_truediv (100 * _) _).
  - destruct (test_loader per_device_batch_size epoch); [done |]. simpl length. lia.
Qed.

(** ** What the loops keep *)

Lemma preserves_train_batch_log (P : Log → option Log → Prop) (args : Args)
    (len_loader : Z) (acc : Acc) (item : Z * (Img * labels)) :
  preserves (on_log P) (train_batch args len_loader acc item).
Proof.
  intros w Hw. destruct item as [step [img label]].
  unfold train_batch, on_log in *. destruct w as [h opt sch l evs sv].
  cbv [do_adjust_learning_rate do_scheduler_step model do_criterion optimizer_zero_grad
       loss_backward optimizer_step emit get set_machine lift mbind mret M_bind M_ret
       w_heap w_optimizer w_scheduler w_log w_events w_saved] in *.
  destruct (warm args).
  - destruct (adjust_learning_rate args opt len_loader step) as [opt1 |];
      cbv beta iota; [| done].
    destruct (LARS_step opt1 _) as [[opt2 h3] |]; cbv beta iota; done.
  - destruct sch as [s |]; cbv beta iota; [| done].
    destruct (scheduler_step s opt) as [s1 opt1]. cbv beta iota.
    destruct (LARS_step opt1 _) as [[opt2 h3] |]; cbv beta iota; done.
Qed.

Lemma preserves_bind_ok {A B} (I : World → Prop) (J : A → Prop) (m : M A) (f : A → M B) :
  preserves I m → (∀ w a w', m w = (Ok a, w') → J a) →
  (∀ a, J a → preserves I (f a)) → preserves I (m ≫= f).
Proof.
  intros Hm HJ Hf w Hw. specialize (Hm w Hw). unfold mbind, M_bind.
  destruct (m w) as [[a | e] w1] eqn:Hmw; simpl in *; [| done].
  apply Hf; [by eapply HJ | done].
Qed.

(** What holds of the accumulators after a loop that returns. *)
Lemma for_each_acc {A} (J : Acc → Prop) (body : Acc → A → M Acc) (l : list A) :
  (∀ acc x w acc' w', J acc → body acc x w = (Ok acc', w') → J acc') →
  ∀ acc w acc' w', J acc → for_each body acc l w = (Ok acc', w') → J acc'.
Proof.
  intros Hbody. induction l as [| x l IH]; intros acc w acc' w' HJ H; simpl in H.
  - by inversion H; subst.
  - apply bind_ok_inv in H as (acc1 & w1 & H1 & H2). eauto.
Qed.

(** ** Workers other than the coordinator *)

(** X15.  A worker whose rank is not 0 never writes the log and never
    saves it: whatever its run does, the log is empty and nothing is saved
    when it ends. *)
Theorem other_workers_never_log (gpu : Z) (args : Args) :
  (rank args + gpu ≠ 0)%Z →
  w_log (main_worker gpu args).2 = mkLog [] [] [] [] ∧
  w_saved (main_worker gpu args).2 = None.
Proof.
  intros Hrank. unfold main_worker.
  set (args' := with_rank args (rank args + gpu)).
  assert ((rank args' =? 0)%Z = false) as Hr by (apply Z.eqb_neq; exact Hrank).
  enough (preserves (on_log (λ l sv, l = mkLog [] [] [] [] ∧ sv = None)) (run args')) as H.
  { apply (H (initial_world args')). unfold on_log.
    destruct (initial_world_fresh CosineAnnealingLR model_parameters args')
      as (_ & ? & ?). done. }
  unfold run. rewrite Hr. apply preserves_bind; [apply preserves_lift |].
  intros _. apply preserves_bind; [apply preserves_lift |].
  intros _. apply preserves_bind; [apply preserves_lift |].
  intros _. apply preserves_bind; [| intros; apply preserves_ret].
  apply preserves_for_each. intros [] epoch. unfold run_epoch. rewrite Hr.
  apply preserves_bind.
  { apply preserves_for_each. intros. apply preserves_train_batch_log. }
  intros acc. apply preserves_bind; intros; apply preserves_ret.
Qed.

(** ** The recorded accuracies *)

Lemma preserves_eval_batch_log (P : Log → option Log → Prop) (acc : Acc)
    (item : Z * (Img * labels)) :
  preserves (on_log P) (eval_batch acc item).
Proof.
  intros w Hw. destruct item as [step [img label]]. by rewrite eval_batch_run.
Qed.

Lemma train_loop_good_acc (args : Args) (per_device_batch_size epoch : Z)
    (w w' : World) (acc : Acc) :
  train_loop args per_device_batch_size epoch w = (Ok acc, w') → good_acc acc.
Proof.
  unfold train_loop. apply for_each_acc; [| unfold good_acc; simpl; lia].
  intros acc0 [step [img label]] w0 acc1 w1 HJ H.
  apply train_batch_ok in H as (_ & _ & _ & _ & _ & _ & _ & ->).
  destruct (rank args =? 0)%Z; [by apply accumulate_good_acc | done].
Qed.

Lemma test_loop_good_acc (per_device_batch_size epoch : Z) (w w' : World) (acc : Acc) :
  test_loop per_device_batch_size epoch w = (Ok acc, w') → good_acc acc.
Proof.
  unfold test_loop. apply for_each_acc; [| unfold good_acc; simpl; lia].
  intros acc0 [step [img label]] w0 acc1 w1 HJ H.
  rewrite eval_batch_run in H. inversion H; subst. by apply accumulate_good_acc.
Qed.

Lemma preserves_record_train_range (acc : Acc) :
  good_acc acc →
  preserves (on_log (λ l _, accuracies_in_range l)) (record_train acc).
Proof.
  intros Hacc w [Htr Hte]. unfold record_train, on_log, accuracies_in_range.
  cbv [lift get set_log mbind mret M_bind M_ret].
  destruct (py_truediv (a_loss acc) _); [| done]. cbv beta iota.
  destruct (py_truediv (100 * _) _) as [y |] eqn:Hy; [| done]. simpl.
  split; [| done]. apply Forall_app. split; [done |].
  apply Forall_singleton. by eapply py_truediv_percent.
Qed.

Lemma preserves_record_test_range (acc : Acc) :
  good_acc acc →
  preserves (on_log (λ l _, accuracies_in_range l)) (record_test acc).
Proof.
  intros Hacc w [Htr Hte]. unfold record_test, on_log, accuracies_in_range.
  cbv [lift get set_log mbind mret M_bind M_ret].
  destruct (py_truediv (a_loss acc) _); [| done]. cbv beta iota.
  destruct (py_truediv (100 * _) _) as [y |] eqn:Hy; [| done]. simpl.
  split; [done |]. apply Forall_app. split; [done |].
  apply Forall_singleton. by eapply py_truediv_percent.
Qed.

(** X16.  Every accuracy in the log lies between 0 and 100, at the end of
    any run, complete or not. *)
Theorem recorded_accuracies_in_range (gpu : Z) (args : Args) :
  accuracies_in_range (w_log (main_worker gpu args).2).
Proof.
  unfold main_worker. set (args' := with_rank args (rank args + gpu)).
  enough (preserves (on_log (λ l _, accuracies_in_range l)) (run args')) as H.
  { apply (H (initial_world args')). unfold on_log.
    destruct (initial_world_fresh CosineAnnealingLR model_parameters args')
      as (_ & -> & _). by split. }
  unfold run. apply preserves_bind; [apply preserves_lift |].
  intros _. apply preserves_bind; [apply preserves_lift |].
  intros _. apply preserves_bind; [apply preserves_lift |].
  intros _. apply preserves_bind.
  2: { intros _. destruct (rank args' =? 0)%Z; [| apply preserves_ret]. by intros w Hw. }
  apply preserves_for_each. intros [] epoch. unfold run_epoch.
  apply (preserves_bind_ok _ good_acc).
  { apply preserves_for_each. intros. apply preserves_train_batch_log. }
  { intros w acc w'. apply train_loop_good_acc. }
  intros acc Hacc. apply preserves_bind.
  { destruct (rank args' =? 0)%Z;
      [by apply preserves_record_train_range | apply preserves_ret]. }
  intros _. destruct (rank args' =? 0)%Z; [| apply preserves_ret].
  apply (preserves_bind_ok _ good_acc).
  { apply preserves_for_each. intros. apply preserves_eval_batch_log. }
  { intros w acc1 w'. apply test_loop_good_acc. }
  intros acc1 Hacc1. by apply preserves_record_test_range.
Qed.

(** ** Loops that return *)

(** An invariant indexed by the number of iterations made, for a loop that
    returns. *)
Lemma for_each_ok {A B} (Q : nat → B → World → Prop) (body : B → A → M B) (l : list A) :
  (∀ k acc x w acc' w',
     l !! k = Some x → Q k acc w → body acc x w = (Ok acc', w') → Q (S k) acc' w') →
  ∀ acc w acc' w',
    Q 0%nat acc w → for_each body acc l w = (Ok acc', w') → Q (length l) acc' w'.
Proof.
  revert Q. induction l as [| x l IH]; intros Q Hbody acc w acc' w' HQ H; simpl in H.
  - by inversion H; subst.
  - apply bind_ok_inv in H as (acc1 & w1 & H1 & H2).
    apply (IH (λ k, Q (S k))) with acc1 w1; [| by eapply (Hbody 0%nat) | done].
    intros k a y v a' v' Hk. by apply (Hbody (S k)).
Qed.

(** The same, for a loop whose body returns under the invariant: the loop
    returns. *)
Lemma for_each_returns {A B} (Q : nat → B → World → Prop) (body : B → A → M B)
    (l : list A) :
  (∀ k acc x w,
     l !! k = Some x → Q k acc w →
     ∃ acc' w', body acc x w = (Ok acc', w') ∧ Q (S k) acc' w') →
  ∀ acc w, Q 0%nat acc w →
           ∃ acc' w', for_each body acc l w = (Ok acc', w') ∧ Q (length l) acc' w'.
Proof.
  revert Q. induction l as [| x l IH]; intros Q Hbody acc w HQ; simpl.
  - by exists acc, w.
  - destruct (Hbody 0%nat acc x w eq_refl HQ) as (acc1 & w1 & H1 & HQ1).
    destruct (IH (λ k, Q (S k))) with acc1 w1 as (acc' & w' & H2 & HQ2); [| done |].
    { intros k a y v Hk. by apply (Hbody (S k)). }
    exists acc', w'. by rewrite (bind_ok _ _ _ _ _ H1).
Qed.

Lemma record_train_inv (acc : Acc) (w w' : World) :
  record_train acc w = (Ok tt, w') →
  ∃ x y, w' = with_log w (mkLog (train_loss (w_log w) ++ [x]) (train_acc (w_log w) ++ [y])
                                (test_loss (w_log w)) (test_acc (w_log w))).
Proof.
  unfold record_train. cbv [lift get set_log mbind mret M_bind M_ret].
  destruct (py_truediv (a_loss acc) _) as [x |]; [| done]. cbv beta iota.
  destruct (py_truediv (100 * _) _) as [y |]; [| done]. intros [= <-].
  by exists x, y.
Qed.

Lemma record_test_inv (acc : Acc) (w w' : World) :
  record_test acc w = (Ok tt, w') →
  ∃ x y, w' = with_log w (mkLog (train_loss (w_log w)) (train_acc (w_log w))
                                (test_loss (w_log w) ++ [x]) (test_acc (w_log w) ++ [y])).
Proof.
  unfold record_test. cbv [lift get set_log mbind mret M_bind M_ret].
  destruct (py_truediv (a_loss acc) _) as [x |]; [| done]. cbv beta iota.
  destruct (py_truediv (100 * _) _) as [y |]; [| done]. intros [= <-].
  by exists x, y.
Qed.

(** The training loop leaves the log and what is saved as they are. *)
Lemma train_loop_log (args : Args) (per_device_batch_size epoch : Z)
    (w w' : World) (acc : Acc) :
  train_loop args per_device_batch_size epoch w = (Ok acc, w') →
  w_log w' = w_log w ∧ w_saved w' = w_saved w.
Proof.
  intros H.
  assert (preserves (on_log (λ l sv, l = w_log w ∧ sv = w_saved w))
                    (train_loop args per_device_batch_size epoch)) as Hp.
  { apply preserves_for_each. intros. apply preserves_train_batch_log. }
  specialize (Hp w). rewrite H in Hp. by apply Hp.
Qed.

(** An epoch that returns on the coordinator appends one entry to each list
    of the log. *)
Lemma run_epoch_ok_log (args : Args) (per_device_batch_size epoch : Z) (w w' : World) :
  rank args = 0%Z →
  run_epoch args per_device_batch_size tt epoch w = (Ok tt, w') →
  w_saved w' = w_saved w ∧
  ∃ a b c d,
    w_log w' = mkLog (train_loss (w_log w) ++ [a]) (train_acc (w_log w) ++ [b])
                     (test_loss (w_log w) ++ [c]) (test_acc (w_log w) ++ [d]).
Proof.
  intros Hrank H. unfold run_epoch in H. rewrite Hrank in H.
  change (0 =? 0)%Z with true in H. cbv iota in H.
  apply bind_ok_inv in H as (acc & w1 & H1 & H).
  apply bind_ok_inv in H as ([] & w2 & H2 & H).
  apply bind_ok_inv in H as (acc3 & w3 & H3 & H4).
  apply train_loop_log in H1 as [Hl1 Hs1].
  apply record_train_inv in H2 as (a & b & ->).
  unfold test_loop in H3. rewrite for_each_eval_batch in H3. inversion H3; subst w3.
  apply record_test_inv in H4 as (c & d & ->).
  simpl. rewrite Hl1, Hs1. split; [done |]. by exists a, b, c, d.
Qed.

(** X17.  When the coordinator's run returns, each of the four lists of
    the log has one entry per epoch, and the log that was saved is the
    final log. *)
Theorem completed_run_log (gpu : Z) (args : Args) (w : World) :
  (rank args + gpu = 0)%Z →
  main_worker gpu args = (Ok tt, w) →
  length (train_loss (w_log w)) = Z.to_nat (epochs args) ∧
  length (train_acc (w_log w)) = Z.to_nat (epochs args) ∧
  length (test_loss (w_log w)) = Z.to_nat (epochs args) ∧
  length (test_acc (w_log w)) = Z.to_nat (epochs args) ∧
  w_saved w = Some (w_log w).
Proof.
  intros Hrank H. unfold main_worker in H.
  set (args' := with_rank args (rank args + gpu)) in *.
  assert (rank args' = 0%Z) as Hr by exact Hrank.
  unfold run in H. rewrite Hr in H. change (0 =? 0)%Z with true in H. cbv iota in H.
  apply lift_bind_ok_inv in H as ([] & _ & H).
  apply lift_bind_ok_inv in H as ([] & _ & H).
  apply lift_bind_ok_inv in H as ([] & _ & H).
  apply bind_ok_inv in H as ([] & w2 & H2 & H3).
  destruct (initial_world_fresh CosineAnnealingLR model_parameters args')
    as (_ & Hlog0 & Hsaved0).
  pose (Q := λ (k : nat) (_ : unit) (v : World),
         length (train_loss (w_log v)) = k ∧ length (train_acc (w_log v)) = k ∧
         length (test_loss (w_log v)) = k ∧ length (test_acc (w_log v)) = k).
  assert (Q (length (range (epochs args'))) tt w2) as HQ.
  { eapply (for_each_ok Q); [| | exact H2].
    - intros k [] epoch v [] v' _ (Ha & Hb & Hc & Hd) Hv.
      apply run_epoch_ok_log in Hv as (_ & a & b & c & d & Hv); [| done].
      unfold Q. rewrite Hv. simpl. rewrite !length_app. simpl. lia.
    - unfold Q. by rewrite Hlog0. }
  unfold range in HQ. rewrite length_map, length_seq in HQ.
  change (epochs args') with (epochs args) in HQ. destruct HQ as (Ha & Hb & Hc & Hd).
  unfold to_parquet, save_log, emit in H3.
  cbv [mbind M_bind] in H3. inversion H3; subst w. simpl. done.
Qed.

(** X18.  On the coordinator, an epoch whose training loader yields no
    batch raises [ZeroDivisionError] when the accuracy is computed, after
    the training loss 0 has been appended to the log; nothing else
    changes. *)
Theorem empty_epoch_divides_by_zero (args : Args) (per_device_batch_size epoch : Z)
    (w : World) :
  rank args = 0%Z →
  train_loader per_device_batch_size epoch = [] →
  run_epoch args per_device_batch_size tt epoch w
  = (Err ZeroDivisionError,
     with_log w (mkLog (train_loss (w_log w) ++ [0 / 1]) (train_acc (w_log w))
                       (test_loss (w_log w)) (test_acc (w_log w)))).
Proof.
  intros Hrank Hempty. unfold run_epoch, train_loop. rewrite Hrank, Hempty.
  change (0 =? 0)%Z with true. cbv iota. cbn [enumerate for_each].
  erewrite bind_ok; [| reflexivity].
  apply bind_err. unfold record_train.
  cbv [lift get set_log mbind mret M_bind M_ret acc0 a_loss a_batch_count a_correct a_total].
  change (0 + 1 =? 0)%Z with false. cbv iota. reflexivity.
Qed.

Lemma DataLoader_ok (batch_size num_workers : Z) :
  (0 < batch_size)%Z → (0 <= num_workers)%Z → DataLoader batch_size num_workers = Ok tt.
Proof.
  intros Hb Hn. unfold DataLoader.
  apply Z.ltb_ge in Hn as ->. apply Z.lt_nge, Z.leb_nle in Hb as ->. done.
Qed.

(** X19.  With a number of epochs that is not positive, a batch size the
    workers share evenly, a positive batch size per device and a number of
    loader workers that is not negative (so that the loaders are built),
    the run returns without any training step: the coordinator saves the
    empty log, and that is its only event. *)
Theorem no_epochs_run (gpu : Z) (args : Args) :
  (epochs args <= 0)%Z → world_size args ≠ 0%Z → (bs args mod world_size args = 0)%Z →
  (0 < bs args / world_size args)%Z → (0 <= workers args)%Z →
  (rank args + gpu = 0)%Z →
  ∃ w, main_worker gpu args = (Ok tt, w) ∧
       w_events w = [EvToParquet] ∧
       w_log w = mkLog [] [] [] [] ∧ w_saved w = Some (mkLog [] [] [] []).
Proof.
  intros He Hws Hmod Hpd Hworkers Hrank. unfold main_worker.
  set (args' := with_rank args (rank args + gpu)).
  assert (rank args' = 0%Z) as Hr by exact Hrank.
  destruct (initial_world_fresh CosineAnnealingLR model_parameters args')
    as (Hev0 & Hlog0 & Hsaved0).
  unfold run. rewrite Hr. change (0 =? 0)%Z with true. cbv iota.
  unfold assert_divisible.
  change (bs args') with (bs args). change (world_size args') with (world_size args).
  apply Z.eqb_neq in Hws. rewrite Hws, Hmod. change (0 =? 0)%Z with true. cbv iota.
  erewrite bind_ok; [| reflexivity].
  change (workers args') with (workers args). rewrite (DataLoader_ok _ _ Hpd Hworkers).
  erewrite bind_ok; [| reflexivity]. erewrite bind_ok; [| reflexivity].
  unfold range. change (epochs args') with (epochs args).
  replace (Z.to_nat (epochs args)) with 0%nat by lia. cbn [seq map for_each].
  erewrite bind_ok; [| reflexivity].
  eexists. split; [reflexivity |]. simpl. by rewrite Hev0, Hlog0.
Qed.

Lemma DataLoader_fails (batch_size num_workers : Z) :
  (batch_size <= 0)%Z ∨ (num_workers < 0)%Z →
  DataLoader batch_size num_workers = Err ValueError.
Proof.
  intros H. unfold DataLoader.
  destruct (Z.ltb_spec num_workers 0); [done |].
  destruct (Z.leb_spec batch_size 0); [done | lia].
Qed.

(** X24.  A batch size that the workers share evenly but that leaves no
    positive batch size per device, or a negative number of loader
    workers, stops the run with [ValueError] when the training loader is
    built: no operation of a training step has been performed, the log
    has no entry and nothing is saved. *)
Theorem invalid_loader_fails_at_startup (gpu : Z) (args : Args) :
  world_size args ≠ 0%Z → (bs args mod world_size args = 0)%Z →
  (bs args / world_size args <= 0)%Z ∨ (workers args < 0)%Z →
  ∃ w, main_worker gpu args = (Err ValueError, w) ∧
       w_events w = [] ∧ w_log w = mkLog [] [] [] [] ∧ w_saved w = None.
Proof.
  intros Hws Hmod Hbad. eexists. split; [| apply initial_world_fresh].
  unfold main_worker. set (args' := with_rank args (rank args + gpu)).
  unfold run, assert_divisible.
  change (bs args') with (bs args). change (world_size args') with (world_size args).
  change (workers args') with (workers args).
  apply Z.eqb_neq in Hws. rewrite Hws, Hmod. change (0 =? 0)%Z with true. cbv iota.
  erewrite bind_ok; [| reflexivity].
  apply bind_err. unfold lift. f_equal. by apply DataLoader_fails.
Qed.

(** ** Runs that complete *)

Lemma Forall_enumerate (l : list (Img * labels)) (start : Z) :
  Forall (λ b, b.2 ≠ []) l →
  Forall (λ it : Z * (Img * labels), it.2.2 ≠ []) (enumerate l start).
Proof.
  revert start. induction l as [| b l IH]; intros start Hall; simpl; [done |].
  apply Forall_cons in Hall as [Hb Hall]. apply Forall_cons. split; [done | by apply IH].
Qed.

Lemma LARS_step_groups (opt opt' : LARS) (h h' : gmap nat Param) :
  LARS_step opt h = Ok (opt', h') → param_groups opt' = param_groups opt.
Proof.
  unfold LARS_step. destruct (step_groups _ _) as [s |]; [| done].
  simpl. by intros [= <- <-].
Qed.

Lemma adjust_learning_rate_returns (args : Args) (opt : LARS) (len_loader step : Z) :
  (0 <= step < epochs args * len_loader)%Z →
  (2 <= length (param_groups opt))%nat →
  ∃ opt', adjust_learning_rate args opt len_loader step = Ok opt'.
Proof.
  intros Hs Hg. destruct (schedule_lr_total args len_loader step Hs) as [lr Hlr].
  unfold adjust_learning_rate. rewrite Hlr. simpl.
  destruct (param_groups opt) as [| g0 [| g1 rest]]; simpl in *; try lia.
  by eexists.
Qed.

Lemma train_batch_total (args : Args) (len_loader : Z) (acc : Acc)
    (step : Z) (img : Img) (label : labels) (w : World) :
  ready args w →
  (warm args = true → (0 <= step < epochs args * len_loader)%Z) →
  ∃ acc' w',
    train_batch args len_loader acc (step, (img, label)) w = (Ok acc', w') ∧
    ready args w'.
Proof.
  unfold ready. intros Hready Hstep.
  destruct (train_batch_returns forward criterion gradient scheduler_step
              args len_loader acc step img label w) as (acc' & w' & H).
  { destruct (warm args); [| done]. by apply adjust_learning_rate_returns; auto. }
  exists acc', w'. split; [done |].
  apply train_batch_ok in H as (opt1 & sched1 & Hs & Hs1 & Hstep1 & _).
  apply LARS_step_groups in Hstep1. destruct (warm args).
  - destruct Hs as [Hadj _].
    apply adjust_learning_rate_group_params in Hadj.
    apply (f_equal length) in Hadj. rewrite !length_fmap in Hadj.
    rewrite Hstep1. lia.
  - destruct Hs as (s & s1 & _ & _ & ->). rewrite Hs1. by eexists.
Qed.

(** With as many batches as [len(train_loader)] says, the training loop of
    an epoch of the run returns. *)
Lemma train_loop_returns (args : Args) (per_device_batch_size epoch : Z) (w : World) :
  ready args w → (0 <= epoch < epochs args)%Z →
  Z.of_nat (length (train_loader per_device_batch_size epoch))
  = len_train_loader per_device_batch_size →
  ∃ acc w', train_loop args per_device_batch_size epoch w = (Ok acc, w') ∧ ready args w'.
Proof.
  intros Hready He Hlen. unfold train_loop.
  destruct (for_each_returns (λ _ _ v, ready args v)
              (train_batch args (len_train_loader per_device_batch_size))
              (enumerate (train_loader per_device_batch_size epoch)
                         (epoch * len_train_loader per_device_batch_size))) with acc0 w
    as (acc & w' & H & Hr); [| done | by exists acc, w'].
  intros k acc [step [img label]] v Hk Hv.
  apply train_batch_total; [done |]. intros _.
  apply list_elem_of_lookup_2, elem_of_enumerate in Hk. nia.
Qed.

Lemma train_loop_total_count (args : Args) (per_device_batch_size epoch : Z)
    (w w' : World) (acc : Acc) :
  rank args = 0%Z →
  nonempty_batches (train_loader per_device_batch_size epoch) →
  train_loop args per_device_batch_size epoch w = (Ok acc, w') →
  (0 < a_total acc)%Z.
Proof.
  intros Hrank [Hne Hall] H. unfold train_loop in H.
  apply (Forall_enumerate _ (epoch * len_train_loader per_device_batch_size)%Z) in Hall.
  pose (Q := λ (k : nat) (a : Acc) (_ : World),
         (0 <= a_total a)%Z ∧ ((0 < k)%nat → (0 < a_total a)%Z)).
  assert (Q (length (enumerate (train_loader per_device_batch_size epoch)
                               (epoch * len_train_loader per_device_batch_size))) acc w')
    as [_ HQ].
  { eapply (for_each_ok Q); [| | exact H].
    - intros k a [step [img label]] v a' v' Hk [Ha _] Hv.
      apply train_batch_ok in Hv as (_ & _ & _ & _ & _ & _ & _ & ->).
      rewrite Hrank. change (0 =? 0)%Z with true. cbv iota zeta.
      rewrite Forall_lookup in Hall. specialize (Hall _ _ Hk). simpl in Hall.
      unfold Q. simpl. destruct label; [done |]. simpl length. lia.
    - unfold Q. simpl. lia. }
  apply HQ. destruct (train_loader per_device_batch_size epoch); [done |]. simpl. lia.
Qed.

Lemma eval_acc_total (h : gmap nat Param) (items : list (Z * (Img * labels))) (acc : Acc) :
  Forall (λ it, it.2.2 ≠ []) items →
  (a_total acc <= a_total (foldl (eval_acc h) acc items))%Z ∧
  (items ≠ [] → a_total acc < a_total (foldl (eval_acc h) acc items))%Z.
Proof.
  revert acc. induction items as [| [step [img label]] items IH]; intros acc Hall.
  - simpl. split; [lia | done].
  - apply Forall_cons in Hall as [Hl Hall]. simpl in Hl. simpl foldl.
    destruct (IH (eval_acc h acc (step, (img, label))) Hall) as [H1 _].
    assert (a_total (eval_acc h acc (step, (img, label)))
            = a_total acc + Z.of_nat (length label))%Z as Hstep by reflexivity.
    destruct label; [done |]. simpl length in Hstep. split; [lia |]. intros _. lia.
Qed.

(** An epoch of the run returns: the training loader has as many batches as
    its length says, and on the coordinator both loaders yield a batch and
    no batch is without samples. *)
Lemma run_epoch_returns (args : Args) (per_device_batch_size epoch : Z) (w : World) :
  ready args w → (0 <= epoch < epochs args)%Z →
  Z.of_nat (length (train_loader per_device_batch_size epoch))
  = len_train_loader per_device_batch_size →
  (rank args = 0%Z →
   nonempty_batches (train_loader per_device_batch_size epoch) ∧
   nonempty_batches (test_loader per_device_batch_size epoch)) →
  ∃ w', run_epoch args per_device_batch_size tt epoch w = (Ok tt, w') ∧ ready args w'.
Proof.
  intros Hready He Hlen Hcoord. unfold run_epoch.
  destruct (train_loop_returns args per_device_batch_size epoch w Hready He Hlen)
    as (acc & w1 & H1 & Hr1).
  rewrite (bind_ok _ _ _ _ _ H1).
  destruct (Z.eqb_spec (rank args) 0) as [Hrank | Hrank].
  2: { exists w1. by rewrite (bind_ok _ _ _ w1 tt eq_refl). }
  destruct (Hcoord Hrank) as [Htrain [Htest1 Htest2]].
  pose proof (train_loop_total_count _ _ _ _ _ _ Hrank Htrain H1) as Htot.
  assert (0 <= a_batch_count acc)%Z as Hbc.
  { unfold train_loop in H1. apply train_loop_batch_count in H1. rewrite H1.
    destruct (train_loader per_device_batch_size epoch); simpl in *; nia. }
  erewrite bind_ok; cycle 1.
  { apply record_train_ok; apply py_truediv_ok; lia. }
  unfold test_loop. erewrite bind_ok; [| apply for_each_eval_batch].
  erewrite record_test_ok; cycle 1.
  { apply py_truediv_ok. rewrite eval_acc_batch_count.
    destruct (test_loader per_device_batch_size epoch); simpl; [lia |]. lia. }
  { apply py_truediv_ok.
    apply (Forall_enumerate _ 0%Z) in Htest2.
    destruct (eval_acc_total (w_heap (with_log w1 (mkLog (train_loss (w_log w1) ++ [a_loss acc / IZR (a_batch_count acc + 1)]) (train_acc (w_log w1) ++ [100 * IZR (a_correct acc) / IZR (a_total acc)]) (test_loss (w_log w1)) (test_acc (w_log w1)))))
                _ acc0 Htest2) as [_ Hpos].
    simpl in Hpos.
    destruct (test_loader per_device_batch_size epoch) as [| b l]; [done |].
    specialize (Hpos ltac:(done)). simpl. simpl in Hpos. lia. }
  eexists. split; [done |]. unfold ready in *. by destruct (warm args).
Qed.

(** X20.  A run completes when the batch size is a multiple of the number
    of workers, the batch size per device is positive and the number of
    loader workers is not negative (so that the loaders are built), the
    training loader of every epoch has as many batches as
    [len(train_loader)], and, for the coordinator, the training and
    evaluation loaders of every epoch yield a batch and no batch is without
    samples. *)
Theorem run_completes (gpu : Z) (args : Args) :
  let per_device_batch_size := (bs args / world_size args)%Z in
  world_size args ≠ 0%Z → (bs args mod world_size args = 0)%Z →
  (0 < per_device_batch_size)%Z → (0 <= workers args)%Z →
  (∀ epoch, (0 <= epoch < epochs args)%Z →
            Z.of_nat (length (train_loader per_device_batch_size epoch))
            = len_train_loader per_device_batch_size) →
  ((rank args + gpu = 0)%Z →
   ∀ epoch, (0 <= epoch < epochs args)%Z →
            nonempty_batches (train_loader per_device_batch_size epoch) ∧
            nonempty_batches (test_loader per_device_batch_size epoch)) →
  ∃ w, main_worker gpu args = (Ok tt, w).
Proof.
  intros pd Hws Hmod Hpd Hworkers Hlen Hcoord. unfold main_worker.
  set (args' := with_rank args (rank args + gpu)).
  assert (ready args' (initial_world args')) as Hready.
  { unfold ready. destruct (warm args') eqn:Hwarm.
    - pose proof (initial_world_groups CosineAnnealingLR model_parameters args' Hwarm) as Hg.
      unfold has_groups in Hg. apply (f_equal length) in Hg.
      rewrite length_fmap in Hg. simpl in Hg. lia.
    - by apply initial_world_scheduler. }
  unfold run, assert_divisible.
  change (bs args') with (bs args). change (world_size args') with (world_size args).
  apply Z.eqb_neq in Hws. rewrite Hws, Hmod. change (0 =? 0)%Z with true. cbv iota.
  erewrite bind_ok; [| reflexivity].
  change (workers args') with (workers args). subst pd.
  rewrite (DataLoader_ok _ _ Hpd Hworkers).
  erewrite bind_ok; [| reflexivity]. erewrite bind_ok; [| reflexivity].
  destruct (for_each_returns (λ _ _ v, ready args' v)
              (run_epoch args' (bs args / world_size args))
              (range (epochs args'))) with tt (initial_world args')
    as ([] & w' & H & Hr); [| done |].
  { intros k [] epoch v Hk Hv.
    apply list_elem_of_lookup_2, elem_of_range in Hk.
    change (epochs args') with (epochs args) in Hk.
    destruct (run_epoch_returns args' (bs args / world_size args) epoch v)
      as (v' & Hv' & Hr'); [done | done | by apply Hlen | | by exists tt, v'].
    intros Hrank. by apply Hcoord. }
  rewrite (bind_ok _ _ _ _ _ H).
  destruct (rank args' =? 0)%Z; by eexists.
Qed.

(** ** The optimizer steps of a run *)

Lemma train_batch_events (args : Args) (len_loader : Z) (acc acc' : Acc)
    (item : Z * (Img * labels)) (w w' : World) :
  train_batch args len_loader acc item w = (Ok acc', w') →
  w_events w' = w_events w ++ training_step_events args.
Proof.
  intros H.
  destruct (traces_train_batch forward criterion gradient scheduler_step
              args len_loader acc item w) as (performed & Hev & _ & Hall).
  rewrite H in Hev, Hall. cbn [fst snd] in Hev, Hall.
  by rewrite Hev, (Hall acc' eq_refl).
Qed.

Lemma optimizer_steps_training_step (args : Args) :
  optimizer_steps (training_step_events args) = 1%nat.
Proof. unfold training_step_events. by destruct (warm args). Qed.

Lemma optimizer_steps_eval (items : list (Z * (Img * labels))) :
  optimizer_steps (items ≫= λ _, [EvForward; EvLoss]) = 0%nat.
Proof. induction items as [| it items IH]; [done |]. simpl. exact IH. Qed.

Lemma train_loop_steps (args : Args) (per_device_batch_size epoch : Z)
    (w w' : World) (acc : Acc) :
  train_loop args per_device_batch_size epoch w = (Ok acc, w') →
  optimizer_steps (w_events w')
  = (optimizer_steps (w_events w)
     + length (train_loader per_device_batch_size epoch))%nat.
Proof.
  intros H. unfold train_loop in H.
  rewrite <- (length_enumerate (train_loader per_device_batch_size epoch)
                (epoch * len_train_loader per_device_batch_size)).
  eapply (for_each_ok (λ k _ v, optimizer_steps (w_events v)
                                = (optimizer_steps (w_events w) + k)%nat));
    [| | exact H]; [| simpl; lia].
  intros k a it v a' v' _ Hv Hstep. apply train_batch_events in Hstep.
  rewrite Hstep. unfold optimizer_steps in *.
  rewrite count_occ_app. fold (optimizer_steps (training_step_events args)).
  rewrite optimizer_steps_training_step. lia.
Qed.

Lemma run_epoch_steps (args : Args) (per_device_batch_size epoch : Z) (w w' : World) :
  run_epoch args per_device_batch_size tt epoch w = (Ok tt, w') →
  optimizer_steps (w_events w')
  = (optimizer_steps (w_events w)
     + length (train_loader per_device_batch_size epoch))%nat.
Proof.
  intros H. unfold run_epoch in H.
  apply bind_ok_inv in H as (acc & w1 & H1 & H).
  apply train_loop_steps in H1. rewrite <- H1.
  destruct (rank args =? 0)%Z.
  - apply bind_ok_inv in H as ([] & w2 & H2 & H).
    apply bind_ok_inv in H as (acc3 & w3 & H3 & H4).
    apply record_train_inv in H2 as (a & b & ->).
    unfold test_loop in H3. rewrite for_each_eval_batch in H3. inversion H3; subst w3.
    apply record_test_inv in H4 as (c & d & ->). simpl.
    unfold optimizer_steps. rewrite count_occ_app.
    fold (optimizer_steps (enumerate (test_loader per_device_batch_size epoch) 0
                           ≫= λ _, [EvForward; EvLoss])).
    rewrite optimizer_steps_eval. lia.
  - cbv [mbind mret M_bind M_ret] in H. by inversion H; subst.
Qed.

(** X21.  A run that returns has made one optimizer step per training
    batch: as many as the training loaders of its epochs yield batches. *)
Theorem one_optimizer_step_per_batch (gpu : Z) (args : Args) (w : World) :
  main_worker gpu args = (Ok tt, w) →
  optimizer_steps (w_events w)
  = sum_list_with (λ epoch, length (train_loader (bs args / world_size args) epoch))
                  (range (epochs args)).
Proof.
  intros H. unfold main_worker in H.
  set (args' := with_rank args (rank args + gpu)) in *.
  unfold run in H.
  apply lift_bind_ok_inv in H as ([] & _ & H).
  apply lift_bind_ok_inv in H as ([] & _ & H).
  apply lift_bind_ok_inv in H as ([] & _ & H).
  apply bind_ok_inv in H as ([] & w2 & H2 & H3).
  change (bs args') with (bs args) in H2.
  change (world_size args') with (world_size args) in H2.
  change (epochs args') with (epochs args) in H2.
  set (len := λ epoch, length (train_loader (bs args / world_size args) epoch)).
  assert (optimizer_steps (w_events w2)
          = sum_list_with len (take (length (range (epochs args))) (range (epochs args))))
    as Hsteps.
  { eapply (for_each_ok (λ k _ v, optimizer_steps (w_events v)
                                  = sum_list_with len (take k (range (epochs args)))));
      [| | exact H2].
    - intros k [] epoch v [] v' Hk Hv Hep. apply run_epoch_steps in Hep.
      rewrite Hep, Hv, (take_S_r _ _ _ Hk), sum_list_with_app. simpl. unfold len. lia.
    - destruct (initial_world_fresh CosineAnnealingLR model_parameters args')
        as (-> & _ & _). by rewrite take_0. }
  rewrite take_ge in Hsteps by done. rewrite <- Hsteps.
  destruct (rank args' =? 0)%Z.
  - unfold to_parquet, save_log, emit in H3. cbv [mbind M_bind] in H3.
    inversion H3; subst w. simpl. unfold optimizer_steps. rewrite count_occ_app.
    simpl. lia.
  - cbv [mret M_ret] in H3. by inversion H3; subst.
Qed.

(** ** One schedule mode per run *)

Lemma traces_absent {A} (m : M A) (evs : list Event) (e : Event) :
  traces m evs → e ∉ evs → preserves (λ w, e ∉ w_events w) m.
Proof.
  intros Hm He w Hw. destruct (Hm w) as (performed & -> & [rest ->] & _).
  intros Hin. apply elem_of_app in Hin as [Hin | Hin]; [done |].
  apply He. apply elem_of_app. by left.
Qed.

Lemma preserves_record_train_events (P : list Event → Prop) (acc : Acc) :
  preserves (λ w, P (w_events w)) (record_train acc).
Proof.
  intros w Hw. unfold record_train. cbv [lift get set_log mbind mret M_bind M_ret].
  destruct (py_truediv (a_loss acc) _); [| done]. cbv beta iota.
  destruct (py_truediv (100 * _) _); done.
Qed.

Lemma preserves_record_test_events (P : list Event → Prop) (acc : Acc) :
  preserves (λ w, P (w_events w)) (record_test acc).
Proof.
  intros w Hw. unfold record_test. cbv [lift get set_log mbind mret M_bind M_ret].
  destruct (py_truediv (a_loss acc) _); [| done]. cbv beta iota.
  destruct (py_truediv (100 * _) _); done.
Qed.

(** X22.  A run uses one schedule mode throughout: with warmup it never
    steps the library scheduler, without warmup it never calls
    [adjust_learning_rate], whether it completes or not. *)
Theorem one_schedule_mode (gpu : Z) (args : Args) :
  other_mode_event args ∉ w_events (main_worker gpu args).2.
Proof.
  unfold main_worker. set (args' := with_rank args (rank args + gpu)).
  set (e := other_mode_event args).
  enough (preserves (λ w, e ∉ w_events w) (run args')) as H.
  { apply (H (initial_world args')).
    destruct (initial_world_fresh CosineAnnealingLR model_parameters args')
      as (-> & _ & _). apply not_elem_of_nil. }
  assert ((e ∉ training_step_events args') ∧ (e ∉ [EvForward; EvLoss]) ∧ e ≠ EvToParquet)
    as (He1 & He2 & He3).
  { subst e. unfold other_mode_event, training_step_events.
    change (warm args') with (warm args).
    destruct (warm args); (split; [| split]); try done;
      intros Hin; repeat (apply elem_of_cons in Hin as [Hin | Hin]; [done |]);
      by apply elem_of_nil in Hin. }
  unfold run. apply preserves_bind; [apply preserves_lift |].
  intros _. apply preserves_bind; [apply preserves_lift |].
  intros _. apply preserves_bind; [apply preserves_lift |].
  intros _. apply preserves_bind.
  2: { intros _. destruct (rank args' =? 0)%Z; [| apply preserves_ret].
       intros w Hw. simpl. intros Hin. apply elem_of_app in Hin as [Hin | Hin]; [done |].
       apply list_elem_of_singleton in Hin. done. }
  apply preserves_for_each. intros [] epoch. unfold run_epoch.
  apply preserves_bind.
  { apply preserves_for_each. intros acc item.
    eapply traces_absent; [apply traces_train_batch | done]. }
  intros acc. apply preserves_bind.
  { destruct (rank args' =? 0)%Z;
      [apply (preserves_record_train_events (λ evs, e ∉ evs)) | apply preserves_ret]. }
  intros _. destruct (rank args' =? 0)%Z; [| apply preserves_ret].
  apply preserves_bind.
  { apply preserves_for_each. intros acc1 [step [img label]] w Hw.
    rewrite eval_batch_run. simpl. intros Hin.
    apply elem_of_app in Hin as [Hin | Hin]; done. }
  intros acc1. apply (preserves_record_test_events (λ evs, e ∉ evs)).
Qed.

(** ** The gradients a training step leaves *)

(** X23.  After a pass of the training loop body that returns, the gradient
    of every parameter of the groups is the one the backward pass computed
    for this batch: nothing of the gradients of earlier steps is left in
    it.  The data a parameter has been given by [step()] is not said
    here. *)
Theorem training_step_fresh_gradients (args : Args) (len_loader : Z) (acc acc' : Acc)
    (step : Z) (img : Img) (label : labels) (w w' : World) (opt1 : LARS) :
  scheduled args len_loader step w opt1 →
  train_batch args len_loader acc (step, (img, label)) w = (Ok acc', w') →
  let fresh := gradient (zero_grad opt1 (w_heap w)) img label in
  param_groups (w_optimizer w') = param_groups opt1 ∧
  ∀ id, id ∈ concat (g_params <$> param_groups opt1) →
        p_grad <$> w_heap w' !! id = (λ _, fresh !! id) <$> w_heap w !! id.
Proof.
  intros Hsched H fresh.
  apply train_batch_ok in H as (opt1' & sched1 & Hs & _ & Hstep & _).
  assert (opt1' = opt1) as ->.
  { unfold scheduled in Hsched. destruct (warm args).
    - destruct Hs as [Hs _]. congruence.
    - destruct Hs as (s & s1 & Hw & Hss & _). destruct Hsched as (s' & s1' & Hw' & Hss').
      congruence. }
  cbv zeta in Hstep. split; [by eapply LARS_step_groups |].
  intros id Hin. subst fresh. unfold LARS_step in Hstep.
  destruct (step_groups _ _) as [s' |] eqn:Hgroups; [| done].
  simpl in Hstep. inversion Hstep as [[Hopt Hheap]].
  destruct (step_groups_meta _ id _ _ Hgroups) as [Hmeta _]. simpl in Hmeta.
  assert (p_grad <$> s'.2 !! id
          = p_grad <$> accumulate_grads (gradient (zero_grad opt1 (w_heap w)) img label)
                                        (zero_grad opt1 (w_heap w)) !! id) as ->.
  { revert Hmeta. generalize (s'.2 !! id).
    generalize (accumulate_grads (gradient (zero_grad opt1 (w_heap w)) img label)
                                 (zero_grad opt1 (w_heap w)) !! id).
    intros [a |] [b |] Heq; simpl in *; [inversion Heq; congruence | done | done | done]. }
  rewrite accumulate_grads_lookup, zero_grad_lookup, decide_True by done.
  destruct (w_heap w !! id) as [p |]; [| done]. simpl.
  by destruct (gradient (zero_grad opt1 (w_heap w)) img label !! id).
Qed.

End WorkerLoopMore.

(** ** The further properties of the loop in the smallest setting *)

Lemma toy_main_worker_returns : ∃ w, Toy.main_worker 0 (Toy.args 32 2 2) = (Ok tt, w).
Proof.
  unfold main_worker, run.
  set (a := with_rank (Toy.args 32 2 2) (rank (Toy.args 32 2 2) + 0)).
  set (w0 := initial_world Toy.CosineAnnealingLR Toy.model_parameters a).
  destruct (toy_run_epoch a (bs a / world_size a) 0 w0) as (w1 & H1 & Hs1 & _);
    [done | done | lia | by apply initial_world_scheduler |].
  destruct (toy_run_epoch a (bs a / world_size a) 1 w1) as (w2 & H2 & _);
    [done | done | lia | done |].
  erewrite bind_ok; [| reflexivity].
  erewrite bind_ok; [| reflexivity].
  erewrite bind_ok; [| reflexivity].
  change (range (epochs a)) with [0%Z; 1%Z]. cbn [for_each].
  erewrite bind_ok; cycle 1.
  { erewrite bind_ok; [| exact H1]. erewrite bind_ok; [| exact H2]. reflexivity. }
  change (rank a =? 0)%Z with true. cbv iota. by eexists.
Qed.

Lemma test_loss_is_epoch_mean_witness :
  ∃ acc w',
    test_loop Toy.forward Toy.criterion Toy.loader 16 0 (Toy.world0 (Toy.args 32 1 2))
    = (Ok acc, w') ∧
    test_loss (w_log (record_test acc w').2)
    = test_loss (w_log (Toy.world0 (Toy.args 32 1 2)))
      ++ [sum_from 0 (batch_losses Toy.forward Toy.criterion
                        (w_heap (Toy.world0 (Toy.args 32 1 2))) (Toy.loader 16 0))
          / IZR (Z.of_nat (length (Toy.loader 16 0)))].
Proof.
  apply (test_loss_is_epoch_mean Toy.forward Toy.criterion Toy.loader 16 0
           (Toy.world0 (Toy.args 32 1 2))).
  discriminate.
Defined.

Lemma other_workers_never_log_witness :
  w_log (Toy.main_worker 1 (Toy.args 32 2 2)).2 = mkLog [] [] [] [] ∧
  w_saved (Toy.main_worker 1 (Toy.args 32 2 2)).2 = None.
Proof.
  apply (other_workers_never_log Toy.forward Toy.criterion Toy.gradient
           Toy.CosineAnnealingLR Toy.scheduler_step Toy.model_parameters
           Toy.len_loader Toy.loader Toy.loader 1 (Toy.args 32 2 2)).
  simpl. lia.
Defined.

Lemma completed_run_log_witness :
  ∃ w, Toy.main_worker 0 (Toy.args 32 2 2) = (Ok tt, w) ∧
       length (train_loss (w_log w)) = Z.to_nat 2 ∧
       length (train_acc (w_log w)) = Z.to_nat 2 ∧
       length (test_loss (w_log w)) = Z.to_nat 2 ∧
       length (test_acc (w_log w)) = Z.to_nat 2 ∧
       w_saved w = Some (w_log w).
Proof.
  destruct toy_main_worker_returns as [w H]. exists w. split; [exact H |].
  apply (completed_run_log Toy.forward Toy.criterion Toy.gradient
           Toy.CosineAnnealingLR Toy.scheduler_step Toy.model_parameters
           Toy.len_loader Toy.loader Toy.loader 0 (Toy.args 32 2 2) w).
  - simpl. lia.
  - exact H.
Defined.

Lemma empty_epoch_divides_by_zero_witness :
  run_epoch Toy.forward Toy.criterion Toy.gradient Toy.scheduler_step
            Toy.len_loader empty_loader Toy.loader (Toy.args 32 2 2) 16 tt 0
            (Toy.world0 (Toy.args 32 2 2))
  = (Err ZeroDivisionError,
     with_log (Toy.world0 (Toy.args 32 2 2))
              (mkLog (train_loss (w_log (Toy.world0 (Toy.args 32 2 2))) ++ [0 / 1])
                     (train_acc (w_log (Toy.world0 (Toy.args 32 2 2))))
                     (test_loss (w_log (Toy.world0 (Toy.args 32 2 2))))
                     (test_acc (w_log (Toy.world0 (Toy.args 32 2 2)))))).
Proof.
  apply (empty_epoch_divides_by_zero Toy.forward Toy.criterion Toy.gradient
           Toy.scheduler_step Toy.len_loader empty_loader Toy.loader
           (Toy.args 32 2 2) 16 0 (Toy.world0 (Toy.args 32 2 2))); reflexivity.
Defined.

Lemma no_epochs_run_witness :
  ∃ w, Toy.main_worker 0 (Toy.args 32 0 2) = (Ok tt, w) ∧
       w_events w = [EvToParquet] ∧
       w_log w = mkLog [] [] [] [] ∧ w_saved w = Some (mkLog [] [] [] []).
Proof.
  apply (no_epochs_run Toy.forward Toy.criterion Toy.gradient
           Toy.CosineAnnealingLR Toy.scheduler_step Toy.model_parameters
           Toy.len_loader Toy.loader Toy.loader 0 (Toy.args 32 0 2)).
  - simpl. lia.
  - simpl. lia.
  - reflexivity.
  - reflexivity.
  - simpl. lia.
  - simpl. lia.
Defined.

Lemma invalid_loader_fails_at_startup_witness :
  ∃ w, Toy.main_worker 0 (Toy.args 0 1 2) = (Err ValueError, w) ∧
       w_events w = [] ∧ w_log w = mkLog [] [] [] [] ∧ w_saved w = None.
Proof.
  apply (invalid_loader_fails_at_startup Toy.forward Toy.criterion Toy.gradient
           Toy.CosineAnnealingLR Toy.scheduler_step Toy.model_parameters
           Toy.len_loader Toy.loader Toy.loader 0 (Toy.args 0 1 2)).
  - simpl. lia.
  - reflexivity.
  - left. vm_compute. discriminate.
Defined.

Lemma run_completes_witness : ∃ w, Toy.main_worker 0 (Toy.args 32 2 2) = (Ok tt, w).
Proof.
  apply (run_completes Toy.forward Toy.criterion Toy.gradient
           Toy.CosineAnnealingLR Toy.scheduler_step Toy.model_parameters
           Toy.len_loader Toy.loader Toy.loader 0 (Toy.args 32 2 2)).
  - simpl. lia.
  - reflexivity.
  - reflexivity.
  - simpl. lia.
  - intros epoch _. reflexivity.
  - intros _ epoch _. unfold nonempty_batches, Toy.loader.
    split; (split; [discriminate | by repeat constructor]).
Defined.

Lemma one_optimizer_step_per_batch_witness :
  ∃ w, Toy.main_worker 0 (Toy.args 32 2 2) = (Ok tt, w) ∧
       optimizer_steps (w_events w)
       = sum_list_with (λ epoch, length (Toy.loader (32 / 2) epoch)) (range 2).
Proof.
  destruct toy_main_worker_returns as [w H]. exists w. split; [exact H |].
  apply (one_optimizer_step_per_batch Toy.forward Toy.criterion Toy.gradient
           Toy.CosineAnnealingLR Toy.scheduler_step Toy.model_parameters
           Toy.len_loader Toy.loader Toy.loader 0 (Toy.args 32 2 2) w H).
Defined.

(** ** The order of operations in a training step *)

Lemma stale_world_scheduled :
  scheduled Toy.scheduler_step (Toy.args 32 1 2) 1 0 Bias.stale_world Bias.optimizer.
Proof. unfold scheduled. simpl. by exists tt, tt. Qed.

Lemma stale_world_returns : ∃ acc' w', Bias.train_batch Bias.stale_world = (Ok acc', w').
Proof. apply train_batch_returns. simpl. by eexists. Qed.

(** What the step computes in that world: the stale gradient 5 is gone,
    the gradient is this batch's 2, [step()] has used it (the buffer is
    [0.9 * 0 + 2], the bias [1 - 0.01 * 2]). *)
Lemma stale_world_step (acc' : Acc) (w' : @World unit) :
  Bias.train_batch Bias.stale_world = (Ok acc', w') →
  w_heap w' !! 1%nat = Some (mkParam [0.98] (Some [2]) 1) ∧
  state (w_optimizer w') !! 1%nat = Some [2].
Proof.
  intros H. apply train_batch_ok in H as (opt1 & sched1 & Hs & _ & Hstep & _).
  change (warm (Toy.args 32 1 2)) with false in Hs. cbv iota in Hs.
  destruct Hs as (s & s1 & _ & Hss & _).
  assert (opt1 = Bias.optimizer) as -> by (by inversion Hss).
  cbv zeta in Hstep.
  set (h2 := accumulate_grads _ _) in Hstep.
  assert (h2 !! 1%nat = Some (mkParam [1] (Some [2]) 1)) as Hh2.
  { subst h2. rewrite accumulate_grads_lookup, zero_grad_lookup.
    rewrite decide_True by (simpl; apply list_elem_of_here).
    unfold Bias.gradient, Bias.stale_world. cbn [w_heap].
    by rewrite !lookup_singleton_eq. }
  destruct (step_groups_at [bias_group 0] 0 (bias_group 0) 1 (mkParam [1] (Some [2]) 1)
              [2] (∅, h2)) as (dp & s' & Hdp & Hs' & Hmu & Hpar);
    [simpl; apply NoDup_singleton | done | simpl; apply list_elem_of_here | done | done |].
  assert (dp = [2]) as -> by (by inversion Hdp).
  unfold LARS_step in Hstep. cbn [param_groups state Bias.optimizer] in Hstep.
  rewrite Hs' in Hstep. simpl in Hstep. inversion Hstep as [[Hopt Hheap]].
  cbn [state fst snd] in *. rewrite lookup_empty in Hmu, Hpar.
  rewrite Hmu, Hpar. unfold new_param, new_mu, with_data, tadd_alpha, tadd, tmul, zeros_like.
  cbn [default p_data p_grad p_ndim length repeat map zip_with g_momentum g_lr bias_group].
  split.
  - f_equal. f_equal. f_equal. lra.
  - f_equal. f_equal. lra.
Qed.

Lemma training_step_fresh_gradients_witness :
  ∃ acc' w',
    Bias.train_batch Bias.stale_world = (Ok acc', w') ∧
    param_groups (w_optimizer w') = [bias_group 0] ∧
    p_grad <$> w_heap Bias.stale_world !! 1%nat = Some (Some [5]) ∧
    p_grad <$> w_heap w' !! 1%nat = Some (Some [2]).
Proof.
  destruct stale_world_returns as (acc' & w' & H). exists acc', w'. split; [exact H |].
  destruct (training_step_fresh_gradients Toy.forward Toy.criterion Bias.gradient
              Toy.scheduler_step (Toy.args 32 1 2) 1 acc0 acc' 0 tt [0%nat]
              Bias.stale_world w' Bias.optimizer stale_world_scheduled H) as [Hg Hfresh].
  split; [exact Hg |]. split.
  - unfold Bias.stale_world. cbn [w_heap]. by rewrite lookup_singleton_eq.
  - rewrite (Hfresh 1%nat) by (simpl; apply list_elem_of_here).
    unfold Bias.gradient, Bias.stale_world. cbn [w_heap]. by rewrite !lookup_singleton_eq.
Defined.

(** C7, as stated, fails.  In the step of the world whose bias still holds
    the gradient 5 of an earlier step, the gradients are cleared before the
    backward pass, not after it.  After the step the bias holds this
    batch's gradient 2 (cleared after the backward pass it would hold
    none, and [step()] would have passed the bias over), and [step()] has
    used that gradient: the buffer is 2 and the bias has gone from 1 to
    [1 - 0.01 * 2]. *)
Lemma clear_after_backward_counterexample :
  ∃ acc' w',
    Bias.train_batch Bias.stale_world = (Ok acc', w') ∧
    w_events w' = [EvSchedulerStep; EvForward; EvLoss; EvZeroGrad; EvBackward;
                   EvOptimizerStep] ∧
    occurs_before EvZeroGrad EvBackward (w_events w') ∧
    ¬ occurs_before EvBackward EvZeroGrad (w_events w') ∧
    w_heap Bias.stale_world !! 1%nat = Some (mkParam [1] (Some [5]) 1) ∧
    w_heap w' !! 1%nat = Some (mkParam [0.98] (Some [2]) 1) ∧
    state (w_optimizer w') !! 1%nat = Some [2].
Proof.
  destruct stale_world_returns as (acc' & w' & H). exists acc', w'. split; [done |].
  assert (w_events w' = [EvSchedulerStep; EvForward; EvLoss; EvZeroGrad; EvBackward;
                         EvOptimizerStep]) as ->.
  { destruct (traces_train_batch Toy.forward Toy.criterion Bias.gradient Toy.scheduler_step
                (Toy.args 32 1 2) 1 acc0 (0%Z, (tt, [0%nat]))
                Bias.stale_world) as (performed & Hev & _ & Hall).
    rewrite H in Hev, Hall. cbn [fst snd] in Hev, Hall.
    by rewrite Hev, (Hall acc' eq_refl). }
  split; [done |]. split; [vm_compute; lia |]. split; [vm_compute; lia |].
  split; [apply lookup_singleton_eq |]. exact (stale_world_step acc' w' H).
Qed.

(** C7 (amended).  A pass of the training loop body performs, in this
    order: the learning-rate update, the forward pass, the loss, the
    clearing of the gradients, the backward pass, [step()]; when it raises,
    a prefix of these.  When it returns, with [opt1] the optimizer as the
    learning-rate update left it: the backward pass ran on the heap
    [cleared], in which every parameter of the groups has lost its
    gradient and is otherwise as before; [step()] ran on the heap
    [consumed], in which the gradient of every parameter of the groups is
    exactly the one the backward pass computed for this batch; and that is
    the gradient these parameters hold after the step. *)
Theorem training_step_order {Img Sched : Type}
    (forward : gmap nat Param → Img → logits) (criterion : logits → labels → R)
    (gradient : gmap nat Param → Img → labels → gmap nat tensor)
    (scheduler_step : Sched → LARS → Sched * LARS)
    (args : Args) (len_loader : Z) (acc : Acc) (step : Z) (img : Img) (label : labels) :
  traces (train_batch forward criterion gradient scheduler_step args len_loader acc
                      (step, (img, label)))
         [if warm args then EvAdjustLearningRate else EvSchedulerStep;
          EvForward; EvLoss; EvZeroGrad; EvBackward; EvOptimizerStep] ∧
  ∀ w acc' w' opt1,
    scheduled scheduler_step args len_loader step w opt1 →
    train_batch forward criterion gradient scheduler_step args len_loader acc
                (step, (img, label)) w = (Ok acc', w') →
    w_events w' = w_events w ++
                  [if warm args then EvAdjustLearningRate else EvSchedulerStep;
                   EvForward; EvLoss; EvZeroGrad; EvBackward; EvOptimizerStep] ∧
    ∃ cleared consumed : gmap nat Param,
      (∀ id, cleared !! id
             = if decide (id ∈ concat (g_params <$> param_groups opt1))
               then (λ p, mkParam (p_data p) None (p_ndim p)) <$> w_heap w !! id
               else w_heap w !! id) ∧
      (∀ id, consumed !! id
             = (λ p, mkParam (p_data p)
                             (accumulate_grad (p_grad p) (gradient cleared img label !! id))
                             (p_ndim p)) <$> cleared !! id) ∧
      (∀ id, id ∈ concat (g_params <$> param_groups opt1) →
             consumed !! id
             = (λ p, mkParam (p_data p) (gradient cleared img label !! id) (p_ndim p))
                 <$> w_heap w !! id) ∧
      LARS_step opt1 consumed = Ok (w_optimizer w', w_heap w') ∧
      (∀ id, id ∈ concat (g_params <$> param_groups opt1) →
             p_grad <$> w_heap w' !! id
             = (λ _, gradient cleared img label !! id) <$> w_heap w !! id).
Proof.
  split; [apply traces_train_batch |].
  intros w acc' w' opt1 Hsched H. split.
  { destruct (traces_train_batch forward criterion gradient scheduler_step
                args len_loader acc (step, (img, label)) w) as (performed & Hev & _ & Hall).
    rewrite H in Hev, Hall. cbn [fst snd] in Hev, Hall.
    by rewrite Hev, (Hall acc' eq_refl). }
  apply train_batch_ok in H as (opt1' & sched1 & Hs & _ & Hstep & _).
  assert (opt1' = opt1) as ->.
  { unfold scheduled in Hsched. destruct (warm args).
    - destruct Hs as [Hs _]. congruence.
    - destruct Hs as (s & s1 & Hw & Hss & _). destruct Hsched as (s' & s1' & Hw' & Hss').
      congruence. }
  cbv zeta in Hstep.
  set (cleared := zero_grad opt1 (w_heap w)) in *.
  set (consumed := accumulate_grads (gradient cleared img label) cleared) in *.
  assert (∀ id, cleared !! id
                = if decide (id ∈ concat (g_params <$> param_groups opt1))
                  then (λ p, mkParam (p_data p) None (p_ndim p)) <$> w_heap w !! id
                  else w_heap w !! id) as Hcleared.
  { intros id. subst cleared. by rewrite zero_grad_lookup. }
  assert (∀ id, consumed !! id
                = (λ p, mkParam (p_data p)
                                (accumulate_grad (p_grad p) (gradient cleared img label !! id))
                                (p_ndim p)) <$> cleared !! id) as Hconsumed.
  { intros id. subst consumed. by rewrite accumulate_grads_lookup. }
  assert (∀ id, id ∈ concat (g_params <$> param_groups opt1) →
                consumed !! id
                = (λ p, mkParam (p_data p) (gradient cleared img label !! id) (p_ndim p))
                    <$> w_heap w !! id) as Hfresh.
  { intros id Hin. rewrite Hconsumed, Hcleared, decide_True by done.
    destruct (w_heap w !! id) as [p |]; [| done]. simpl.
    by destruct (gradient cleared img label !! id). }
  exists cleared, consumed. split; [done |]. split; [done |]. split; [done |].
  split; [done |].
  intros id Hin. unfold LARS_step in Hstep.
  destruct (step_groups _ _) as [s' |] eqn:Hgroups; [| done].
  simpl in Hstep. inversion Hstep as [[Hopt Hheap]].
  destruct (step_groups_meta _ id _ _ Hgroups) as [Hmeta _]. simpl in Hmeta.
  assert (p_grad <$> s'.2 !! id = p_grad <$> consumed !! id) as ->.
  { revert Hmeta. generalize (s'.2 !! id). generalize (consumed !! id).
    intros [a |] [b |] Heq; simpl in *; [inversion Heq; congruence | done | done | done]. }
  rewrite (Hfresh id Hin). by destruct (w_heap w !! id).
Qed.

(** In the world whose bias holds the stale gradient 5: [step()] ran on a
    heap in which the gradient of the bias is this batch's 2, and 2 is the
    gradient the bias holds after the step. *)
Lemma training_step_order_witness :
  ∃ acc' w',
    Bias.train_batch Bias.stale_world = (Ok acc', w') ∧
    w_events w' = [EvSchedulerStep; EvForward; EvLoss; EvZeroGrad; EvBackward;
                   EvOptimizerStep] ∧
    w_heap Bias.stale_world !! 1%nat = Some (mkParam [1] (Some [5]) 1) ∧
    (∃ consumed : gmap nat Param,
       consumed !! 1%nat = Some (mkParam [1] (Some [2]) 1) ∧
       LARS_step Bias.optimizer consumed = Ok (w_optimizer w', w_heap w')) ∧
    p_grad <$> w_heap w' !! 1%nat = Some (Some [2]).
Proof.
  destruct stale_world_returns as (acc' & w' & H). exists acc', w'. split; [exact H |].
  destruct (proj2 (training_step_order Toy.forward Toy.criterion Bias.gradient
                     Toy.scheduler_step (Toy.args 32 1 2) 1 acc0 0 tt [0%nat])
              Bias.stale_world acc' w' Bias.optimizer stale_world_scheduled H)
    as (Hev & cleared & consumed & _ & _ & Hfresh & Hstep & Hgrad).
  split; [exact Hev |]. split; [apply lookup_singleton_eq |].
  assert (1%nat ∈ concat (g_params <$> param_groups Bias.optimizer)) as Hin
    by (simpl; apply list_elem_of_here).
  split.
  - exists consumed. split; [| exact Hstep].
    rewrite (Hfresh 1%nat Hin). unfold Bias.gradient, Bias.stale_world. cbn [w_heap].
    by rewrite !lookup_singleton_eq.
  - rewrite (Hgrad 1%nat Hin). unfold Bias.gradient, Bias.stale_world. cbn [w_heap].
    by rewrite !lookup_singleton_eq.
Defined.
